(** * PyMORESANE: the deconvolution driver and its FFT convolution

    A shallow embedding of [src/pymoresane/main.py] (class [FitsImage]:
    [moresane] and [moresane_by_scale]) and of [fft_convolve] of
    [src/iuwt_toolbox.py], followed by the properties proved about them.

    Conventions.
    - A numpy array of floats is a list of rows, [seq (seq R)], over an
      ordered field [R]: arithmetic is exact, so rounding, [nan] and [inf]
      are outside the model (a division by zero yields [0] here, where
      numpy yields [nan] or [inf] with a warning).
    - Python 2 integer division of non-negative integers is [%/]; slice
      bounds are integers and are normalised as Python does.
    - The modules the driver imports and that are not part of the sources
      at hand ([pymoresane.iuwt], [pymoresane.iuwt_convolution],
      [pymoresane.iuwt_toolbox]) and the FFT and square-root primitives of
      numpy are the fields of the interface [toolbox].
    - Loops are functions of their state; a loop that the source does not
      bound takes fuel and returns [None] when the fuel runs out. *)

From Stdlib Require Import String Lia.
From Stdlib Require Import ZArith Znat QArith Qcanon Qcabs.
From HB Require Import structures.
From mathcomp Require Import boot order algebra.
From mathcomp Require Import ring lra.
From mathcomp Require Import algC cyclotomic.

Set Implicit Arguments.
Unset Strict Implicit.
Unset Printing Implicit Defensive.

Import Order.TTheory GRing.Theory Num.Theory.
Set Warnings "-rewrite-rw".
Close Scope Q_scope.
Local Open Scope ring_scope.

(** ** Part I. Definitions *)

(** *** Python slices and numpy arrays *)

(** The index a slice bound [i] denotes in a sequence of length [n]:
    negative bounds count from the end, and every bound is clipped to
    [0..n]. *)
Definition slice_index (n : nat) (i : int) : nat :=
  if i < 0 then (if i + n%:Z < 0 then 0%N else absz (i + n%:Z))
  else minn (absz i) n.

(** [slice(start, stop)] on a sequence of length [n]: the positions [k]
    with [lo <= k < hi]. *)
Definition py_slice (n : nat) (start stop : int) : nat * nat :=
  (slice_index n start, slice_index n stop).

Definition in_slice (sl : nat * nat) (k : nat) : bool :=
  (sl.1 <= k < sl.2)%N.

(** A slice as the source writes it: the pair [(start, stop)]. *)
Definition slice := (int * int)%type.

Section Sequences.
Variable T : Type.

(** [s[start:stop]] *)
Definition getslice (sl : slice) (s : seq T) : seq T :=
  let b := py_slice (size s) sl.1 sl.2 in take (b.2 - b.1) (drop b.1 s).

Fixpoint mapi_from (k : nat) (f : nat -> T -> T) (s : seq T) : seq T :=
  if s is v :: s' then f k v :: mapi_from k.+1 f s' else [::].

(** In-place update of the positions of a slice: position [k] of the
    slice receives [f (k - lo)] of its old value. *)
Definition update_slice (sl : slice) (f : nat -> T -> T) (s : seq T) :=
  let b := py_slice (size s) sl.1 sl.2 in
  mapi_from 0 (fun k v => if in_slice b k then f (k - b.1)%N v else v) s.

Definition zip_with (U V : Type) (f : T -> U -> V) (s : seq T) (t : seq U) :=
  [seq f p.1 p.2 | p <- zip s t].

End Sequences.

Section Ndarray.
Variable R : realFieldType.

Definition image := seq (seq R).
Definition cube := seq image.

(** [a.shape] of a two-dimensional array. *)
Definition shape (a : image) : nat * nat := (size a, size (head [::] a)).

Definition np_zeros (h w : nat) : image := nseq h (nseq w 0).
Definition np_zeros_like (a : image) : image := [seq [seq 0 | _ <- r] | r <- a].

(** Element-wise operations on arrays of one shape. *)
Definition img_add (a b : image) : image := zip_with (zip_with +%R) a b.
Definition img_sub (a b : image) : image := zip_with (zip_with (fun u v => u - v)) a b.
Definition img_mul (a b : image) : image := zip_with (zip_with *%R) a b.
Definition img_scale (c : R) (a : image) : image := [seq [seq c * v | v <- r] | r <- a].
Definition img_div (a : image) (c : R) : image := [seq [seq v / c | v <- r] | r <- a].
Definition cube_mul (a b : cube) : cube := zip_with img_mul a b.

(** [a[rows, cols]] *)
Definition getslice2 (rows cols : slice) (a : image) : image :=
  [seq getslice cols r | r <- getslice rows a].

(** The entry [v[i, j]], [0] outside of [v]. *)
Definition at2 (v : image) (i j : nat) : R := nth 0 (nth [::] v i) j.

(** [a[rows, cols] = op(a[rows, cols], v)], in place; [v] has the shape of
    the slice (numpy raises when it cannot be broadcast to it). *)
Definition update_slice2 (op : R -> R -> R) (rows cols : slice)
    (v : image) (a : image) : image :=
  update_slice rows
    (fun i r => update_slice cols (fun j u => op u (at2 v i j)) r) a.

(** [a[rows, cols] += v] and [a[rows, cols] -= v]. *)
Definition slice_iadd := update_slice2 +%R.
Definition slice_isub := update_slice2 (fun u v => u - v).

(** [a.ravel()] *)
Definition ravel (a : image) : seq R := flatten a.

Definition np_sum (s : seq R) : R := foldr +%R 0 s.

(** [np.max] and [np.min] of a non-empty array (numpy raises on an empty
    one; the fold then yields [0]). *)
Definition seq_max (s : seq R) : R :=
  if s is v :: s' then foldr Num.max v s' else 0.
Definition seq_min (s : seq R) : R :=
  if s is v :: s' then foldr Num.min v s' else 0.
Definition np_max (a : image) : R := seq_max (ravel a).
Definition np_min (a : image) : R := seq_min (ravel a).

(** [np.argmax]: the first position of the maximum. *)
Definition np_argmax (s : seq R) : nat := index (seq_max s) s.

(** [np.dot(a.reshape(1,-1), b.reshape(-1,1))[0,0]] *)
Definition np_dot (a b : image) : R :=
  np_sum (zip_with *%R (ravel a) (ravel b)).

(** [xn[xn<0] = 0] *)
Definition clip_negative (a : image) : image :=
  [seq [seq (if v < 0 then 0 else v) | v <- r] | r <- a].

(** [np.std] with the square root [sqrt] of the numerical back end: the
    root of the mean squared deviation from the mean. *)
Definition np_mean (s : seq R) : R := np_sum s / (size s)%:R.
Definition np_std (sqrt : R -> R) (a : image) : R :=
  let s := ravel a in
  let mu := np_mean s in
  sqrt (np_mean [seq (v - mu) ^+ 2 | v <- s]).

Definition all_zero (a : image) : bool := all (all (fun v => v == 0)) a.
Definition nonneg (a : image) : bool := all (all (fun v => 0 <= v)) a.

End Ndarray.

(** *** The interface of the driver's collaborators *)

Inductive device := Cpu | Gpu.
Inductive convolution := Linear | Circular.

(** The functions [moresane] calls in [pymoresane.iuwt] ([iuwt.]),
    [pymoresane.iuwt_convolution] ([conv.]) and [pymoresane.iuwt_toolbox]
    ([tools.]), with the arguments that carry data; the arguments that
    only select how a result is computed ([decom_mode], [core_count],
    [extraction_mode], [store_on_gpu]) are left out.  [rfft2] is
    [np.fft.rfft2] and [np_sqrt] is [np.sqrt]. *)
Record toolbox (R : realFieldType) := Toolbox {
  spectrum : Type;
  iuwt_decomposition : image R -> nat -> nat -> cube R;
  iuwt_recomposition : cube R -> nat -> image R;
  estimate_threshold : cube R -> nat -> nat -> seq R;
  apply_threshold : cube R -> seq R -> R -> cube R;
  source_extraction : cube R -> R -> bool -> cube R * cube R;
  snr_ratio : cube R -> cube R -> R;
  conv_fft_convolve : image R -> spectrum -> device -> convolution -> image R;
  pad_array : image R -> image R;
  gpu_r2c_fft : image R -> spectrum;
  rfft2 : image R -> spectrum;
  np_sqrt : R -> R
}.

(** The keyword arguments of [moresane]. *)
Record params (R : realFieldType) := Params {
  subregion : option nat;
  scale_count : option nat;
  sigma_level : R;
  loop_gain : R;
  tolerance : R;
  accuracy : R;
  major_loop_miter : nat;
  minor_loop_miter : nat;
  all_on_gpu : bool;
  conv_device : device;
  conv_mode : convolution;
  enforce_positivity : bool;
  edge_suppression : bool;
  edge_offset : nat;
  flux_threshold : R;
  neg_comp : bool;
  edge_excl : nat;
  int_excl : nat
}.

(** What a loop body tells its loop. *)
Inductive control := Break | Continue.

(** What a call ends with: a value, an exception, or no more fuel. *)
Inductive exn := ValueError | OverflowError.
Inductive result (T : Type) := Return of T | Raise of exn | Exhausted.
Arguments Raise {T} _.
Arguments Exhausted {T}.

(** The keyword arguments with the loop gain [g]. *)
Definition with_loop_gain (R : realFieldType) (g : R) (P : params R) :=
  Params (subregion P) (scale_count P) (sigma_level P) g
    (tolerance P) (accuracy P) (major_loop_miter P) (minor_loop_miter P)
    (all_on_gpu P) (conv_device P) (conv_mode P) (enforce_positivity P)
    (edge_suppression P) (edge_offset P) (flux_threshold P) (neg_comp P)
    (edge_excl P) (int_excl P).

(** *** The minor loop (main.py, lines 380-472) *)

(** The variables the minor loop reads and writes. *)
Record minor_state (R : realFieldType) := MinorState {
  x : image R;
  r : image R;
  p : image R;
  minor_loop_niter : nat;
  snr_last : R;
  snr_current : R;
  min_scale : nat
}.

Section MinorLoop.
Variables (R : realFieldType) (TB : toolbox R) (P : params R).
(** What the enclosing loops have fixed when the minor loop starts. *)
Variables (psf_subregion_fft : spectrum TB) (max_scale scale_adjust : nat).
Variables (extracted_sources extracted_sources_mask : cube R).

(** [conv.fft_convolve(v, psf_subregion_fft, conv_device, conv_mode)] *)
Definition convolve_sub (v : image R) : image R :=
  conv_fft_convolve v psf_subregion_fft (conv_device P) (conv_mode P).

(** Lines 428-431: convolve, decompose from [scale_adjust] up to
    [max_scale], keep the extracted coefficients. *)
Definition project (v : image R) : cube R :=
  cube_mul extracted_sources_mask
    (iuwt_decomposition TB (convolve_sub v) max_scale scale_adjust).

(** Lines 395-399 and 414-418: the same, recomposed. *)
Definition A_op (v : image R) : image R :=
  iuwt_recomposition TB (project v) scale_adjust.

(** Lines 401-403. *)
Definition cg_alpha (st : minor_state R) : R :=
  np_dot (r st) (r st) / np_dot (p st) (A_op (p st)).

(** Lines 405-418: the updated solution [xn], with the direction [p] and
    its image [Ap] as they stand after the positivity step. *)
Definition cg_update (st : minor_state R) : image R * image R * image R :=
  let alpha := cg_alpha st in
  let xn := img_add (x st) (img_scale alpha (p st)) in
  if (np_min xn < 0) && enforce_positivity P then
    let xn' := clip_negative xn in
    let p' := img_div (img_sub xn' (x st)) alpha in
    (xn', p', A_op p')
  else (xn, p st, A_op (p st)).

Definition xn_of (st : minor_state R) : image R := (cg_update st).1.1.

(** Lines 438-439: the statistic of the iteration. *)
Definition snr_of (st : minor_state R) : R :=
  snr_ratio TB extracted_sources (project (xn_of st)).

(** Modelled from the spec: the statistic in the words of the
    specification, [20 log10 (|b| / |b - A(xn)|)] with [b] the sources
    recomposed into an image and [A(xn)] the image of the update under
    the operator of the loop: the library's ratio on the two images. *)
Definition snr_spec (st : minor_state R) : R :=
  snr_ratio TB [:: iuwt_recomposition TB extracted_sources scale_adjust]
    [:: A_op (xn_of st)].

(** One pass through the body of the minor loop, lines 395-472. *)
Definition minor_iteration (st : minor_state R) : control * minor_state R :=
  let alpha := cg_alpha st in
  let: (xn, p1, Ap) := cg_update st in
  let rn := img_sub (r st) (img_scale alpha Ap) in
  let beta := np_dot rn rn / np_dot (r st) (r st) in
  let p2 := img_add rn (img_scale beta p1) in
  let snr_l := snr_current st in
  let snr_c := snr_ratio TB extracted_sources (project xn) in
  let k := (minor_loop_niter st).+1 in
  if (k == 1%N) && (40%:R < snr_c) then
    (Break, MinorState (x st) (r st) p2 k snr_l snr_c (min_scale st).+1)
  else if 40%:R < snr_c then
    (Break, MinorState xn (r st) p2 k snr_l snr_c 0)
  else if (2 < k)%N && (snr_c <= snr_l) then
    if 21%:R / 2%:R < snr_c then
      (Break, MinorState (x st) (r st) p2 k snr_l snr_c 0)
    else
      (Break, MinorState (x st) (r st) p2 k snr_l snr_c (min_scale st).+1)
  else
    (Continue, MinorState xn rn p2 k snr_l snr_c (min_scale st)).

(** [while (minor_loop_niter<minor_loop_miter)], line 393; the counter
    grows by one in every pass, so [fuel] passes are all it can make when
    [fuel] is what the counter lacks to [minor_loop_miter]. *)
Fixpoint minor_loop_from (fuel : nat) (st : minor_state R) : minor_state R :=
  if fuel is f.+1 then
    if (minor_loop_niter st < minor_loop_miter P)%N then
      match minor_iteration st with
      | (Break, st') => st'
      | (Continue, st') => minor_loop_from f st'
      end
    else st
  else st.

Definition minor_loop (st : minor_state R) : minor_state R :=
  minor_loop_from (minor_loop_miter P - minor_loop_niter st) st.

(** Lines 380-387: the state the minor loop starts in. *)
Definition minor_init (recomposed_sources : image R) (min_scale0 : nat) :=
  MinorState (np_zeros_like recomposed_sources) recomposed_sources
    recomposed_sources 0 0 0 min_scale0.

(** The states at the head of the minor loop: [minor_reach n st0 st] when
    [n] passes from [st0], none of them leaving the loop, lead to [st]. *)
Inductive minor_reach (st0 : minor_state R) : nat -> minor_state R -> Prop :=
| reach0 : minor_reach st0 0 st0
| reachS n st st' :
    minor_reach st0 n st ->
    (minor_loop_niter st < minor_loop_miter P)%N ->
    minor_iteration st = (Continue, st') ->
    minor_reach st0 n.+1 st'.

End MinorLoop.

(** *** The session object (class [FitsImage], main.py, lines 16-66)

    The attributes that hold arrays hold references into a store of
    arrays: [self.dirty_data = self.residual] makes two attributes name
    one array, and [self.model += model] changes an array in place. *)

Definition ref := nat.
Definition store (R : realFieldType) := seq (image R).
Definition deref (R : realFieldType) (h : store R) (l : ref) : image R :=
  nth [::] h l.

Record FitsImage (R : realFieldType) := Session {
  self_dirty_data : ref;
  self_psf_data : ref;
  self_mask : option (image R);
  self_dirty_data_shape : nat * nat;
  self_psf_data_shape : nat * nat;
  self_complete : bool;
  self_model : ref;
  self_residual : ref;
  self_restored : ref
}.

(** [__init__], from the arrays read from the two files and the prepared
    mask: five fresh arrays. *)
Definition FitsImage_init (R : realFieldType) (dirty psf : image R)
    (mask : option (image R)) : FitsImage R * store R :=
  (Session 0 1 mask (shape dirty) (shape psf) false 2 3 4,
   [:: dirty; psf; np_zeros_like dirty; dirty; np_zeros_like dirty]).

Definition set_complete (R : realFieldType) (b : bool) (s : FitsImage R) :=
  Session (self_dirty_data s) (self_psf_data s) (self_mask s)
    (self_dirty_data_shape s) (self_psf_data_shape s) b
    (self_model s) (self_residual s) (self_restored s).

Definition set_dirty_data (R : realFieldType) (l : ref) (s : FitsImage R) :=
  Session l (self_psf_data s) (self_mask s)
    (self_dirty_data_shape s) (self_psf_data_shape s) (self_complete s)
    (self_model s) (self_residual s) (self_restored s).

Definition set_residual (R : realFieldType) (l : ref) (s : FitsImage R) :=
  Session (self_dirty_data s) (self_psf_data s) (self_mask s)
    (self_dirty_data_shape s) (self_psf_data_shape s) (self_complete s)
    (self_model s) l (self_restored s).

(** *** The major loop (main.py, lines 250-529) *)

(** The variables of [moresane] that live across passes of the major
    loop; [minor] holds those the minor loop shares with it ([x],
    [min_scale], ...), and [self] the session, whose [complete] flag the
    loop sets. *)
Record major_state (R : realFieldType) := MajorState {
  major_loop_niter : nat;
  max_coeff : R;
  model : image R;
  residual : image R;
  std_current : R;
  std_last : R;
  std_ratio : R;
  dirty_subregion : image R;
  dirty_decomposition_thresh : cube R;
  normalised_scale_maxima : seq R;
  minor : minor_state R;
  self : FitsImage R
}.

Section MajorLoop.
Variables (R : realFieldType) (TB : toolbox R) (P : params R).
(** What the prologue of [moresane] has fixed: the dirty array, the
    resolved [subregion] and [scale_count], the slice of the subregion,
    the two PSF spectra, the PSF energies and the suppression array. *)
Variable dirty_data : image R.
Variable the_scale_count : nat.
Variable subregion_slice : slice * slice.
Variables (psf_subregion_fft psf_data_fft : spectrum TB).
Variable psf_energies : seq R.
Variable suppression_array : cube R.

Definition in_subregion (a : image R) : image R :=
  getslice2 subregion_slice.1 subregion_slice.2 a.

(** Lines 293-315: decompose, threshold, suppress the edges, and take
    the maximum of every scale over the PSF energy of the scale (both
    decompositions have [scale_count] planes). *)
Definition analyse (mask : option (image R)) (dirty_sub : image R) :
    cube R * seq R :=
  let dec := iuwt_decomposition TB dirty_sub the_scale_count 0 in
  let thresholds := estimate_threshold TB dec (edge_excl P) (int_excl P) in
  let dec' :=
    if mask is Some m then
      iuwt_decomposition TB (img_mul dirty_sub (in_subregion m))
        the_scale_count 0
    else dec in
  let th := apply_threshold TB dec' thresholds (sigma_level P) in
  let th' :=
    if edge_suppression P || (0 < edge_offset P)%N
    then cube_mul th suppression_array else th in
  (th', mkseq (fun i => np_max (nth [::] th' i) / nth 0 psf_energies i)
          (size th')).

(** Lines 338-350: one above the first empty scale met going down from
    the scale below [max_index], [0] when there is none. *)
Fixpoint find_scale_adjust (nsm : seq R) (i : nat) : nat :=
  if i is j.+1 then
    if nth 0 nsm j == 0 then j.+1 else find_scale_adjust nsm j
  else 0%N.

Definition set_minor (ms : minor_state R) (st : major_state R) :=
  MajorState (major_loop_niter st) (max_coeff st) (model st) (residual st)
    (std_current st) (std_last st) (std_ratio st) (dirty_subregion st)
    (dirty_decomposition_thresh st) (normalised_scale_maxima st) ms (self st).

Definition set_analysis (th : cube R) (nsm : seq R) (mc : R)
    (st : major_state R) :=
  MajorState (major_loop_niter st) mc (model st) (residual st)
    (std_current st) (std_last st) (std_ratio st) (dirty_subregion st)
    th nsm (minor st) (self st).

Definition set_min_scale (k : nat) (ms : minor_state R) :=
  MinorState (x ms) (r ms) (p ms) (minor_loop_niter ms) (snr_last ms)
    (snr_current ms) k.

(** One pass through the body of [while (min_scale<scale_count)], lines
    293-483. *)
Definition inner_pass (st : major_state R) : control * major_state R :=
  let ms0 := min_scale (minor st) in
  let: (th, nsm) :=
    if ms0 == 0%N then analyse (self_mask (self st)) (dirty_subregion st)
    else (dirty_decomposition_thresh st, normalised_scale_maxima st) in
  let max_index := (np_argmax (drop ms0 nsm) + ms0)%N in
  let max_scale := max_index.+1 in
  let mc := nth 0 nsm max_index in
  let st1 := set_analysis th nsm mc st in
  if mc == 0 then (Break, st1)
  else
    let scale_adjust := find_scale_adjust nsm max_index in
    let thresh_slice := getslice (scale_adjust%:Z, max_scale%:Z) th in
    let: (extracted_sources, extracted_sources_mask) :=
      source_extraction TB thresh_slice (tolerance P) (neg_comp P) in
    let recomposed_sources :=
      iuwt_recomposition TB extracted_sources scale_adjust in
    let ms :=
      minor_loop P psf_subregion_fft max_scale scale_adjust
        extracted_sources extracted_sources_mask
        (minor_init recomposed_sources ms0) in
    if (minor_loop_niter ms == minor_loop_miter P)
       && (21%:R / 2%:R < snr_current ms)
    then (Break, set_minor (set_min_scale 0 ms) st1)
    else if min_scale ms == 0%N then (Break, set_minor ms st1)
    else (Continue, set_minor ms st1).

(** [while (min_scale<scale_count)], line 287.  Nothing bounds the
    number of passes, hence the fuel. *)
Fixpoint inner_while (fuel : nat) (st : major_state R) :
    option (major_state R) :=
  if (min_scale (minor st) < the_scale_count)%N then
    if fuel is f.+1 then
      match inner_pass st with
      | (Break, st') => Some st'
      | (Continue, st') => inner_while f st'
      end
    else None
  else Some st.

(** [conv.fft_convolve(model, psf_data_fft, conv_device, conv_mode)] *)
Definition convolve_full (m : image R) : image R :=
  conv_fft_convolve m psf_data_fft (conv_device P) (conv_mode P).

(** Lines 500 and 514. *)
Definition residual_of (m : image R) : image R :=
  img_sub dirty_data (convolve_full m).

(** Line 498, [model[subregion_slice] += loop_gain*x], and line 513. *)
Definition accrete (x : image R) (m : image R) : image R :=
  slice_iadd subregion_slice.1 subregion_slice.2
    (img_scale (loop_gain P) x) m.
Definition revert (x : image R) (m : image R) : image R :=
  slice_isub subregion_slice.1 subregion_slice.2
    (img_scale (loop_gain P) x) m.

(** Lines 504-506, for the model [m1] after the accretion. *)
Definition std_after (m1 : image R) : R :=
  np_std (np_sqrt TB) (in_subregion (residual_of m1)).
Definition std_ratio_after (st : major_state R) (m1 : image R) : R :=
  (std_current st - std_after m1) / std_current st.

(** Has the pass that starts in [st] a worse residual than before? *)
Definition worsened (st : major_state R) : bool :=
  std_ratio_after st (accrete (x (minor st)) (model st)) < 0.

(** Lines 494-521: the deconvolution step of a pass. *)
Definition deconvolution_step (st : major_state R) : major_state R :=
  let x := x (minor st) in
  let model1 := accrete x (model st) in
  let std_last' := std_current st in
  let std_current' := std_after model1 in
  let std_ratio' := (std_last' - std_current') / std_last' in
  let model2 := if std_ratio' < 0 then revert x model1 else model1 in
  let residual2 := residual_of model2 in
  MajorState (major_loop_niter st).+1 (max_coeff st) model2 residual2
    std_current' std_last' std_ratio' (in_subregion residual2)
    (dirty_decomposition_thresh st) (normalised_scale_maxima st)
    (minor st) (self st).

Definition mark_complete (st : major_state R) : major_state R :=
  MajorState (major_loop_niter st) (max_coeff st) (model st) (residual st)
    (std_current st) (std_last st) (std_ratio st) (dirty_subregion st)
    (dirty_decomposition_thresh st) (normalised_scale_maxima st)
    (minor st) (set_complete true (self st)).

(** What follows the inner loop in a pass, lines 487-529. *)
Definition after_inner (st1 : major_state R) : control * major_state R :=
  if min_scale (minor st1) == the_scale_count then (Break, st1)
  else
    let st2 := if 0 < max_coeff st1 then deconvolution_step st1 else st1 in
    if major_loop_niter st2 == 0%N then (Break, mark_complete st2)
    else (Continue, st2).

(** One pass through the body of the major loop, lines 287-529. *)
Definition major_body (fuel : nat) (st : major_state R) :
    option (control * major_state R) :=
  omap after_inner (inner_while fuel st).

(** The condition of the major loop, lines 281-282. *)
Definition major_guard (st : major_state R) : bool :=
  ((major_loop_niter st < major_loop_miter P)%N && (0 < max_coeff st))
  && ((accuracy P < std_ratio st)
      && (flux_threshold P < np_max (dirty_subregion st))).

Fixpoint major_loop (fuel : nat) (st : major_state R) :
    option (major_state R) :=
  if major_guard st then
    if fuel is f.+1 then
      match major_body f st with
      | Some (Break, st') => Some st'
      | Some (Continue, st') => major_loop f st'
      | None => None
      end
    else None
  else Some st.

(** Lines 250-259: the state the major loop starts in.  [residual] and
    the variables of the inner loops are not bound yet; they are read
    only after they have been. *)
Definition major_init (s : FitsImage R) : major_state R :=
  MajorState 0 1 (np_zeros_like dirty_data) [::] 1000%:R 1 1
    (in_subregion dirty_data) [::] [::]
    (MinorState [::] [::] [::] 0 0 0 0) s.

End MajorLoop.

(** *** [moresane] (main.py, lines 68-536) *)

Section Moresane.
Variables (R : realFieldType) (TB : toolbox R).

(** Lines 128-131. *)
Definition resolve_devices (P : params R) : params R :=
  if all_on_gpu P then
    Params (subregion P) (scale_count P) (sigma_level P) (loop_gain P)
      (tolerance P) (accuracy P) (major_loop_miter P) (minor_loop_miter P)
      (all_on_gpu P) Gpu (conv_mode P) (enforce_positivity P)
      (edge_suppression P) (edge_offset P) (flux_threshold P) (neg_comp P)
      (edge_excl P) (int_excl P)
  else P.

(** Lines 120-122: [subregion] defaults to, and is capped at, the first
    dimension of the dirty image. *)
Definition resolve_subregion (P : params R) (H : nat) : nat :=
  if subregion P is Some s then (if (H < s)%N then H else s) else H.

(** Lines 124-126, for [H > 0]: [int(np.log2(H)-1)], and the test
    [scale_count > np.log2(H)-1], which reads [H < 2 ^ (scale_count+1)]. *)
Definition max_scale_count (H : nat) : nat := (trunc_log 2 H - 1)%N.
Definition resolve_scale_count (P : params R) (H : nat) : nat :=
  if scale_count P is Some c then
    (if (H < 2 ^ c.+1)%N then max_scale_count H else c)
  else max_scale_count H.

(** [slice(n/2 - k, n/2 + k)], in the integer division of Python 2. *)
Definition central (n k : nat) : slice :=
  ((n %/ 2)%:Z - k%:Z, (n %/ 2)%:Z + k%:Z).

(** Lines 136-137. *)
Definition subregion_slice_of (sh : nat * nat) (s : nat) : slice * slice :=
  (central sh.1 (s %/ 2), central sh.2 (s %/ 2)).

Definition is_double (psf_shape dirty_shape : nat * nat) : bool :=
  (psf_shape.1 == 2 * dirty_shape.1)%N && (psf_shape.2 == 2 * dirty_shape.2)%N.

(** Lines 141-145. *)
Definition psf_subregion_of (psf : image R) (psf_shape dirty_shape : nat * nat)
    (s : nat) : image R :=
  if is_double psf_shape dirty_shape then
    getslice2 (central psf_shape.1 (s %/ 2)) (central psf_shape.2 (s %/ 2)) psf
  else
    getslice2 (subregion_slice_of dirty_shape s).1
      (subregion_slice_of dirty_shape s).2 psf.

(** Lines 150-228: the spectra of the PSF over the subregion and over the
    whole image.  The two devices differ in the transform they call. *)
Definition psf_spectra (P : params R) (psf : image R)
    (psf_shape dirty_shape : nat * nat) (s : nat) :
    spectrum TB * spectrum TB :=
  let r2c := if conv_device P is Gpu then gpu_r2c_fft TB else rfft2 TB in
  let psf_sub := psf_subregion_of psf psf_shape dirty_shape s in
  let whole := (dirty_shape.1 == s) && (dirty_shape.2 == s) in
  let around k :=
    getslice2 (central psf_shape.1 k) (central psf_shape.2 k) psf in
  match conv_mode P with
  | Circular =>
      if is_double psf_shape dirty_shape then
        (r2c psf_sub,
         r2c (getslice2 (central psf_shape.1 (dirty_shape.1 %/ 2))
                (central psf_shape.2 (dirty_shape.2 %/ 2)) psf))
      else
        (r2c psf_sub,
         if shape psf_sub == psf_shape then r2c psf_sub else r2c psf)
  | Linear =>
      if is_double psf_shape dirty_shape then
        if whole then (r2c psf, r2c psf)
        else (r2c (around s), r2c psf)
      else
        if whole then (r2c (pad_array TB psf), r2c (pad_array TB psf))
        else (r2c (around s), r2c (pad_array TB psf))
  end.

(** Lines 236-241. *)
Definition psf_energies_of (psf_sub : image R) (n : nat) : seq R :=
  [seq np_sqrt TB (np_sum [seq v ^+ 2 | v <- ravel plane])
  | plane <- iuwt_decomposition TB psf_sub n 0].

(** [zeros([s,s])] with [[e:-e, e:-e] = 1]. *)
Definition ones_inside (s e : nat) : image R :=
  update_slice2 (fun _ _ => 1) (e%:Z, - e%:Z) (e%:Z, - e%:Z) [::]
    (np_zeros R s s).

(** The loop of lines 267-272, from scale [i] on, [k] scales to go. *)
Fixpoint suppression_loop (P : params R) (s k i edge_corruption : nat) :
    cube R :=
  if k is k'.+1 then
    let ec := (edge_corruption + 2 * 2 ^ i)%N in
    ones_inside s (if (ec < edge_offset P)%N then edge_offset P else ec)
      :: suppression_loop P s k' i.+1 ec
  else [::].

(** Lines 264-275; nothing is bound when neither option is set. *)
Definition suppression_array_of (P : params R) (s n : nat) : cube R :=
  if edge_suppression P then suppression_loop P s n 0 0
  else if (0 < edge_offset P)%N then nseq n (ones_inside s (edge_offset P))
  else [::].

(** Lines 534-536: [self.model += model] changes the array of the
    session in place; [self.residual = residual] names a new array. *)
Definition publish (st : major_state R) (h : store R) : FitsImage R * store R :=
  let s := self st in
  if (0 < major_loop_niter st)%N then
    let h1 :=
      set_nth [::] h (self_model s)
        (img_add (deref h (self_model s)) (model st)) in
    (set_residual (size h1) s, rcons h1 (residual st))
  else (s, h).

(** The prologue, lines 114-275: the loop's surroundings and its first
    state. *)
Definition run_major_loop (fuel : nat) (P : params R) (s : FitsImage R)
    (h : store R) : option (major_state R) :=
  let P := resolve_devices P in
  let sh := self_dirty_data_shape s in
  let dirty := deref h (self_dirty_data s) in
  let psf := deref h (self_psf_data s) in
  let sub := resolve_subregion P sh.1 in
  let n := resolve_scale_count P sh.1 in
  let sl := subregion_slice_of sh sub in
  let psf_sub := psf_subregion_of psf (self_psf_data_shape s) sh sub in
  let ffts := psf_spectra P psf (self_psf_data_shape s) sh sub in
  major_loop P dirty n sl ffts.1 ffts.2 (psf_energies_of psf_sub n)
    (suppression_array_of P sub n) fuel (major_init dirty sl s).

(** The state the major loop of a call starts in, its first pass, and
    the normalised scale maxima that pass computes (lines 293-315), each
    with the surroundings of the prologue. *)
Definition first_state (P : params R) (s : FitsImage R) (h : store R) :
    major_state R :=
  let P := resolve_devices P in
  let sh := self_dirty_data_shape s in
  major_init (deref h (self_dirty_data s))
    (subregion_slice_of sh (resolve_subregion P sh.1)) s.

Definition first_pass (fuel : nat) (P : params R) (s : FitsImage R)
    (h : store R) : option (control * major_state R) :=
  let P' := resolve_devices P in
  let sh := self_dirty_data_shape s in
  let dirty := deref h (self_dirty_data s) in
  let psf := deref h (self_psf_data s) in
  let sub := resolve_subregion P' sh.1 in
  let n := resolve_scale_count P' sh.1 in
  let sl := subregion_slice_of sh sub in
  let psf_sub := psf_subregion_of psf (self_psf_data_shape s) sh sub in
  let ffts := psf_spectra P' psf (self_psf_data_shape s) sh sub in
  major_body P' dirty n sl ffts.1 ffts.2 (psf_energies_of psf_sub n)
    (suppression_array_of P' sub n) fuel (first_state P s h).

Definition first_maxima (P : params R) (s : FitsImage R) (h : store R) :
    seq R :=
  let P := resolve_devices P in
  let sh := self_dirty_data_shape s in
  let dirty := deref h (self_dirty_data s) in
  let psf := deref h (self_psf_data s) in
  let sub := resolve_subregion P sh.1 in
  let n := resolve_scale_count P sh.1 in
  let sl := subregion_slice_of sh sub in
  let psf_sub := psf_subregion_of psf (self_psf_data_shape s) sh sub in
  (analyse TB P n sl (psf_energies_of psf_sub n)
     (suppression_array_of P sub n) (self_mask s)
     (in_subregion sl dirty)).2.

Definition moresane (fuel : nat) (P : params R) (s : FitsImage R)
    (h : store R) : result (FitsImage R * store R) :=
  if odd (self_dirty_data_shape s).1 then Raise ValueError
  else if (self_dirty_data_shape s).1 == 0%N then Raise OverflowError
  else if run_major_loop fuel P s h is Some st then Return (publish st h)
  else Exhausted.

(** *** [moresane_by_scale] (main.py, lines 538-614) *)

Definition with_scale_count (P : params R) (c : nat) : params R :=
  Params (subregion P) (Some c) (sigma_level P) (loop_gain P)
    (tolerance P) (accuracy P) (major_loop_miter P) (minor_loop_miter P)
    (all_on_gpu P) (conv_device P) (conv_mode P) (enforce_positivity P)
    (edge_suppression P) (edge_offset P) (flux_threshold P) (neg_comp P)
    (edge_excl P) (int_excl P).

(** [scale_count > np.log2(n) - 1]; [np.log2(0)] is [-inf]. *)
Definition above_log2 (c n : nat) : bool := (n < 2 ^ c.+1)%N.

(** The loop of lines 586-609 with [k] passes to go; [scale_count] grows
    by one in every pass, and a pass that takes it above [stop_scale]
    is the last. *)
Fixpoint by_scale_loop (fuel : nat) (P : params R) (stop_scale : nat)
    (k : nat) (c : nat) (s : FitsImage R) (h : store R) :
    result (FitsImage R * store R) :=
  if self_complete s then Return (s, h)
  else if k is k'.+1 then
    match moresane fuel (with_scale_count P c) s h with
    | Return (s1, h1) =>
        let s2 := set_dirty_data (self_residual s1) s1 in
        if above_log2 c.+1 (size (deref h1 (self_dirty_data s2)))
        then Return (s2, h1)
        else if (stop_scale < c.+1)%N then Return (s2, h1)
        else by_scale_loop fuel P stop_scale k' c.+1 s2 h1
    | Raise e => Raise e
    | Exhausted => Exhausted
    end
  else Exhausted.

Definition moresane_by_scale (fuel : nat) (P : params R)
    (start_scale stop_scale : nat) (s : FitsImage R) (h : store R) :
    result (FitsImage R * store R) :=
  let dirty_data := self_dirty_data s in
  match by_scale_loop fuel P stop_scale (stop_scale - start_scale).+1
          start_scale s h with
  | Return (s', h') =>
      Return (set_complete false (set_dirty_data dirty_data s'), h')
  | Raise e => Raise e
  | Exhausted => Exhausted
  end.

End Moresane.

(** *** [fft_convolve] on the CPU (src/iuwt_toolbox.py, lines 17-56)

    Complex arrays are lists of rows over a closed field [C] with its
    order on the reals: [np.real] is ['Re], and a real array is one whose
    entries are real.  [omega n] stands for [exp(-2*pi*i/n)], the root
    of unity of the transform of length [n]. *)

Section FftConvolve.
Variable C : numClosedFieldType.
Variable omega : nat -> C.

Definition carray := seq (seq C).

Definition cat2 (a : carray) (i j : nat) : C := nth 0 (nth [::] a i) j.

Definition height (a : carray) : nat := size a.
Definition width (a : carray) : nat := size (head [::] a).

(** An [h] by [w] array: [h] rows of [w] entries. *)
Definition has_shape (h w : nat) (a : carray) : bool :=
  (size a == h) && all (fun row => size row == w) a.

Definition is_real_array (a : carray) : bool :=
  all (all (fun z => z \is Num.real)) a.

(** [np.fft.fft2] *)
Definition fft2 (a : carray) : carray :=
  let h := height a in
  let w := width a in
  mkseq (fun u => mkseq (fun v =>
    \sum_(j < h) \sum_(k < w)
      cat2 a j k * omega h ^+ (u * j) * omega w ^+ (v * k)) w) h.

(** [np.fft.ifft2] *)
Definition ifft2 (a : carray) : carray :=
  let h := height a in
  let w := width a in
  mkseq (fun j => mkseq (fun k =>
    (h * w)%:R^-1 *
    \sum_(u < h) \sum_(v < w)
      cat2 a u v * omega h ^- (u * j) * omega w ^- (v * k)) w) h.

(** [np.fft.fftshift]: every axis is rolled by half its length, so the
    entry at [i] moves to [(i + n %/ 2) %% n]. *)
Definition fftshift (a : carray) : carray :=
  let h := height a in
  let w := width a in
  mkseq (fun i => mkseq (fun j =>
    cat2 a ((i + (h - h %/ 2)) %% h) ((j + (w - w %/ 2)) %% w)) w) h.

(** [in2 * b] and [np.real] *)
Definition cmul (a b : carray) : carray := zip_with (zip_with *%R) a b.
Definition np_real (a : carray) : carray := [seq [seq 'Re z | z <- row] | row <- a].

(** Line 56: the circular convolution on the CPU; [in2] is the transform
    of the PSF. *)
Definition fft_convolve_circular (in1 in2 : carray) : carray :=
  np_real (fftshift (ifft2 (cmul in2 (fft2 in1)))).

(** Lines 33-56.  The transforms on the GPU and [scipy]'s [fftconvolve]
    are the collaborators [gpu_r2c], [gpu_c2r] (with their padding flag)
    and [fftconvolve_same]. *)
Definition fft_convolve
    (gpu_r2c : carray -> bool -> carray) (gpu_c2r : carray -> bool -> carray)
    (fftconvolve_same : carray -> carray -> carray)
    (in1 in2 : carray) (use_gpu : bool) (conv_mode : convolution) : carray :=
  if use_gpu then
    match conv_mode with
    | Linear => gpu_c2r (cmul (gpu_r2c in1 true) in2) true
    | Circular => gpu_c2r (cmul (gpu_r2c in1 false) in2) false
    end
  else
    match conv_mode with
    | Linear => fftconvolve_same in1 in2
    | Circular => fft_convolve_circular in1 in2
    end.

(** The array of shape [h] by [w] that is [1] at [(i0, j0)] and [0]
    elsewhere. *)
Definition delta (h w i0 j0 : nat) : carray :=
  mkseq (fun i => mkseq (fun j => ((i == i0) && (j == j0))%:R) w) h.

End FftConvolve.

(** *** The other methods of [FitsImage] and the transforms on the GPU *)

(** An array of shape [h] by [w]. *)
Definition img_shape (R : realFieldType) (h w : nat) (a : image R) : bool :=
  (size a == h) && all (fun row => size row == w) a.

(** **** [handle_input] (main.py, lines 635-651)

    The header is read through [NAXIS] and the keys [CTYPE1] to
    [CTYPEn]: it is the list of its [CTYPE] values.  The result is a list
    of indices, each the index [0] or the full slice [slice(None)]. *)
Inductive axis_index := Index0 | SliceAll.

Definition axis_of (b : bool) : axis_index := if b then SliceAll else Index0.

(** [l[-k] = v], for [k > 0]; Python raises [IndexError] ([None] here)
    when the list has fewer than [k] items. *)
Definition set_from_end (T : Type) (k : nat) (v : T) (l : seq T) :
    option (seq T) :=
  if (k <= size l)%N then Some (set_nth v l (size l - k) v) else None.

(** One pass through the body of the loop of lines 644-648. *)
Definition handle_input_step (ctype : string) (input_slice : seq axis_index) :
    option (seq axis_index) :=
  let after_ra :=
    if String.prefix "RA" ctype then set_from_end 1 SliceAll input_slice
    else Some input_slice in
  if after_ra is Some input_slice1 then
    if String.prefix "DEC" ctype then set_from_end 2 SliceAll input_slice1
    else Some input_slice1
  else None.

Definition handle_input (ctypes : seq string) : option (seq axis_index) :=
  foldl (fun acc ctype =>
           if acc is Some input_slice
           then handle_input_step ctype input_slice else None)
    (Some (nseq (size ctypes) Index0)) ctypes.

(** **** [save_fits] (main.py, lines 653-663)

    [data.reshape(1, 1, data.shape[0], data.shape[0])]: numpy raises
    [ValueError] ([None] here) unless the new shape holds as many entries
    as the old one. *)
Definition save_fits_reshape (sh : nat * nat) : option (nat * nat * nat * nat) :=
  if (1 * 1 * sh.1 * sh.1 == sh.1 * sh.2)%N then Some (1, 1, sh.1, sh.1)%N
  else None.

(** **** [restore] (main.py, lines 616-633)

    Line 624: the restored image of a PSF of double size is cropped to
    [[H/2 : -H/2, W/2 : -W/2]]; in Python 2, [-H/2] is the floor of
    [(-H)/2]. *)
Definition restore_slice (n : nat) : slice :=
  ((n %/ 2)%:Z, - ((n + 1) %/ 2)%:Z).

Definition restore_crop (R : realFieldType) (sh : nat * nat) (a : image R) :
    image R :=
  getslice2 (restore_slice sh.1) (restore_slice sh.2) a.

(** **** The shapes of [gpu_r2c_fft] and [gpu_c2r_ifft]
    (src/iuwt_toolbox.py, lines 58-127)

    [output_size] is an array of integers: the assignment of
    [0.5*output_size[1] + 1] to its entry truncates the value. *)
Definition gpu_r2c_input_shape (padded : bool) (sh : nat * nat) : nat * nat :=
  if padded then (2 * sh.1, 2 * sh.2)%N else sh.

Definition gpu_r2c_output_size (padded : bool) (sh : nat * nat) : nat * nat :=
  let size0 := gpu_r2c_input_shape padded sh in
  (size0.1, size0.2 %/ 2 + 1)%N.

(** Lines 115-116: [output_size[1] = 2*(output_size[1]-1)], an integer
    that is negative for an input without columns. *)
Definition gpu_c2r_output_size (sh : nat * nat) : int * int :=
  (sh.1%:Z, 2 * (sh.2%:Z - 1)).

(** Lines 118-121: the slice of one axis of length [n].  When the input
    is padded the bounds are the floats [0.5*(0.5*n)] and
    [1.5*(0.5*n)]; they are indices when [n] is a multiple of 4, and
    what numpy does with the others depends on its version ([None]
    here). *)
Definition gpu_c2r_slice (is_padded : bool) (n : nat) : option slice :=
  if is_padded then
    if (4 %| n)%N then Some ((n %/ 4)%:Z, (3 * (n %/ 4))%:Z) else None
  else Some (0, n%:Z).

(** **** Sums of complex arrays, entry by entry *)
Definition cadd (C : numClosedFieldType) (a b : carray C) : carray C :=
  zip_with (zip_with +%R) a b.

(** ** A test bench

    *** The rationals of the Standard Library as an ordered field

    [Qc] holds a rational as a reduced fraction of binary integers, so
    that the examples below can be evaluated. *)

Definition Qc_eqb (x y : Qc) : bool := Qeq_bool x y.

Lemma Qc_eqbP : Equality.axiom Qc_eqb.
Proof.
move=> x y; apply: (iffP idP) => [/Qeq_bool_eq/Qc_is_canon //|->].
exact/Qeq_eq_bool/Qeq_refl.
Qed.

HB.instance Definition _ := hasDecEq.Build Qc Qc_eqbP.

Definition Qc_code (x : Qc) : nat * bool * nat :=
  (Z.abs_nat (Qnum x), Z.leb 0 (Qnum x), Pos.to_nat (Qden x)).

Definition Qc_decode (c : nat * bool * nat) : option Qc :=
  let: (n, b, d) := c in
  Some (Q2Qc (Qmake (if b then Z.of_nat n else Z.opp (Z.of_nat n))
                (Pos.of_nat d))).

Lemma Qc_codeK : pcancel Qc_code Qc_decode.
Proof.
move=> x; rewrite /Qc_code /Qc_decode; congr Some.
apply: Qc_is_canon; apply: Qeq_trans (Qred_correct _) _.
case: x => -[n d] _ /=; rewrite Pos2Nat.id.
suff -> : (if Z.leb 0 n then Z.of_nat (Z.abs_nat n)
           else Z.opp (Z.of_nat (Z.abs_nat n))) = n by apply: Qeq_refl.
by case: n => [|p|p] //=; rewrite positive_nat_Z.
Qed.

HB.instance Definition _ := PCanHasChoice Qc_codeK.

Lemma Qc_addA : associative Qcplus. Proof. exact: Qcplus_assoc. Qed.
Lemma Qc_addC : commutative Qcplus. Proof. exact: Qcplus_comm. Qed.
Lemma Qc_add0 : left_id (Q2Qc 0) Qcplus. Proof. exact: Qcplus_0_l. Qed.
Lemma Qc_addN : left_inverse (Q2Qc 0) Qcopp Qcplus.
Proof. by move=> x; rewrite Qcplus_comm; apply: Qcplus_opp_r. Qed.

HB.instance Definition _ := GRing.isZmodule.Build Qc Qc_addA Qc_addC Qc_add0 Qc_addN.

Lemma Qc_mulA : associative Qcmult. Proof. exact: Qcmult_assoc. Qed.
Lemma Qc_mulC : commutative Qcmult. Proof. exact: Qcmult_comm. Qed.
Lemma Qc_mul1 : left_id (Q2Qc 1) Qcmult. Proof. exact: Qcmult_1_l. Qed.
Lemma Qc_mulD : left_distributive Qcmult Qcplus.
Proof. exact: Qcmult_plus_distr_l. Qed.
Lemma Qc_one_neq0 : Q2Qc 1 != Q2Qc 0 :> Qc. Proof. by []. Qed.

HB.instance Definition _ :=
  GRing.Zmodule_isComNzRing.Build Qc Qc_mulA Qc_mulC Qc_mul1 Qc_mulD Qc_one_neq0.

Lemma Qc_mulV (x : Qc) : x != 0%R -> Qcmult (Qcinv x) x = 1%R.
Proof.
move=> /eqP x0; rewrite Qcmult_comm; apply: Qcmult_inv_r.
exact: x0.
Qed.

Lemma Qc_inv0 : Qcinv 0%R = 0%R. Proof. exact/eqP. Qed.

HB.instance Definition _ := GRing.ComNzRing_isField.Build Qc Qc_mulV Qc_inv0.

Definition Qc_leb (x y : Qc) : bool := Qle_bool x y.
Definition Qc_ltb (x y : Qc) : bool := (y != x) && Qc_leb x y.

Lemma Qc_lebP x y : reflect (Qcle x y) (Qc_leb x y).
Proof.
by apply: (iffP idP) => h; [apply/Qle_bool_iff | apply/Qle_bool_iff].
Qed.

Lemma Qc_le0_add x y : Qc_leb 0%R x -> Qc_leb 0%R y -> Qc_leb 0%R (x + y)%R.
Proof.
move=> /Qc_lebP x0 /Qc_lebP y0; apply/Qc_lebP.
by have := Qcplus_le_compat _ _ _ _ x0 y0; rewrite Qcplus_0_l.
Qed.

Lemma Qc_le0_mul x y : Qc_leb 0%R x -> Qc_leb 0%R y -> Qc_leb 0%R (x * y)%R.
Proof.
move=> /Qc_lebP x0 /Qc_lebP y0; apply/Qc_lebP.
by have := Qcmult_le_compat_r _ _ _ x0 y0; rewrite Qcmult_0_l.
Qed.

Lemma Qc_le0_anti x : Qc_leb 0%R x -> Qc_leb x 0%R -> x = 0%R.
Proof. by move=> /Qc_lebP x0 /Qc_lebP x1; apply: Qcle_antisym. Qed.

Lemma Qc_sub_ge0 x y : Qc_leb 0%R (y - x)%R = Qc_leb x y.
Proof.
apply/Qc_lebP/Qc_lebP => h.
  have := Qcplus_le_compat _ _ _ _ h (Qcle_refl x).
  by rewrite Qcplus_0_l -Qcplus_assoc (Qcplus_comm _ x) Qcplus_opp_r Qcplus_0_r.
have := Qcplus_le_compat _ _ _ _ h (Qcle_refl (Qcopp x)).
by rewrite Qcplus_opp_r.
Qed.

Lemma Qc_le0_total x : Qc_leb 0%R x || Qc_leb x 0%R.
Proof.
case: (Qclt_le_dec 0%R x) => [/Qclt_le_weak|] /Qc_lebP -> //.
by rewrite orbT.
Qed.

Lemma Qc_normN x : Qcabs (- x)%R = Qcabs x. Proof. exact: Qcabs_opp. Qed.

Lemma Qc_ge0_norm x : Qc_leb 0%R x -> Qcabs x = x.
Proof. by move=> /Qc_lebP; apply: Qcabs_pos. Qed.

Lemma Qc_lt_def x y : Qc_ltb x y = (y != x) && Qc_leb x y. Proof. by []. Qed.

HB.instance Definition _ :=
  Num.IntegralDomain_isLeReal.Build Qc Qc_le0_add Qc_le0_mul Qc_le0_anti Qc_sub_ge0
    Qc_le0_total Qc_normN Qc_ge0_norm Qc_lt_def.


(** *** A small toolbox over the rationals *)

(** The integer square root, and the root of a rational that is the
    square of one (rounded down on the others). *)
Definition bench_sqrt (q : Qc) : Qc :=
  Q2Qc (Qmake (Z.sqrt (Qnum q)) (Pos.sqrt (Qden q))).

(** [psf * v], circular and centred: the entry [(h %/ 2, w %/ 2)] of the
    PSF is its origin. *)
Definition bench_convolve (v psf : image Qc) : image Qc :=
  let h := size v in
  let w := size (head [::] v) in
  mkseq (fun i => mkseq (fun j =>
    np_sum [seq np_sum [seq at2 psf m n
                            * at2 v ((i + h - m + h %/ 2) %% h)
                                    ((j + w - n + w %/ 2) %% w)
                       | n <- iota 0 w]
           | m <- iota 0 h]) w) h.

(** A one-tap stand-in for the wavelet transform: the smooth image of
    scale [k] is the image over [2 ^ k], the detail of scale [k] the
    difference of two of them. *)
Definition bench_decomposition (v : image Qc) (n adjust : nat) : cube Qc :=
  [seq img_div v (2%:R ^+ k.+1) | k <- iota adjust (n - adjust)].

(** The sum of the scales. *)
Definition bench_recomposition (c : cube Qc) (adjust : nat) : image Qc :=
  if c is v :: c' then foldr (@img_add _) v c' else [::].

(** The median of the moduli, scale by scale, over 0.6745 (3/2 here). *)
Definition median (s : seq Qc) : Qc :=
  let t := sort <=%R s in
  let n := size t in
  if odd n then nth 0 t (n %/ 2)
  else (nth 0 t (n %/ 2).-1 + nth 0 t (n %/ 2)) / 2%:R.
Definition bench_threshold (c : cube Qc) (edge_excl int_excl : nat) : seq Qc :=
  [seq median [seq `|u| | u <- ravel v] * (3%:R / 2%:R) | v <- c].

(** A coefficient is kept when its modulus reaches [sigma_level] times
    the threshold of its scale; the kept ones are clipped at zero. *)
Definition bench_apply_threshold (c : cube Qc) (t : seq Qc) (sigma : Qc) :=
  zip_with (fun v ti =>
    [seq [seq (if `|u| < sigma * ti then 0 else (u + `|u|) / 2%:R) | u <- row]
    | row <- v]) c t.

(** Every pixel is an object of its own: it is kept when it reaches
    [tolerance] times the maximum of its scale. *)
Definition bench_keep (tol m u : Qc) : bool := (0 < u) && (tol * m <= u).
Definition bench_extraction (c : cube Qc) (tol : Qc) (neg : bool) :
    cube Qc * cube Qc :=
  ([seq [seq [seq (if bench_keep tol (np_max v) u then u else 0) | u <- row]
        | row <- v] | v <- c],
   [seq [seq [seq (if bench_keep tol (np_max v) u then 1 else 0) | u <- row]
        | row <- v] | v <- c]).

(** [20 log10 (|u| / |u - v|)], that is [10 log10] of the ratio [q] of the
    squared norms, rounded down to a multiple of 10 dB between -50 and
    50; 400 dB stands for the infinite value of a perfect fit. *)
Definition norm2 (c : cube Qc) : Qc :=
  np_sum [seq u ^+ 2 | u <- flatten (map (@ravel _) c)].
Fixpoint decades (fuel : nat) (q p : Qc) (i : nat) : nat :=
  if fuel is f.+1 then
    if q < p * 10%:R then i else decades f q (p * 10%:R) i.+1
  else i.
Definition bench_snr (u v : cube Qc) : Qc :=
  let d := norm2 (zip_with (@img_sub _) u v) in
  if d == 0 then 400%:R
  else
    let q := norm2 u / d in
    if 1 <= q then (10 * decades 5 q 1 0)%:R
    else - (10 * (decades 4 q^-1 1 0).+1)%:R.

Definition bench : toolbox Qc :=
  @Toolbox Qc (image Qc) bench_decomposition bench_recomposition
    bench_threshold bench_apply_threshold bench_extraction bench_snr
    (fun v psf _ _ => bench_convolve v psf) id id id bench_sqrt.



(** *** Inputs for the bench *)

Definition qi (n : int) : Qc := n%:~R.
Definition qimg (v : seq (seq int)) : image Qc := map (map qi) v.

(** What a call returned, [d] when it did not return. *)
Definition returned (T : Type) (d : T) (r : result T) : T :=
  if r is Return v then v else d.
Definition is_return (T : Type) (r : result T) : bool :=
  if r is Return _ then true else false.

(** A 4 by 4 dirty image with two bright pixels and a PSF with its peak
    at the centre pixel [(2, 2)]. *)
Definition bench_dirty : image Qc :=
  qimg [:: [:: 0; 0; 0; 0]; [:: 0; 4; 2; 0]; [:: 0; 0; 0; 0]; [:: 0; 0; 0; 0]].
Definition bench_psf : image Qc :=
  [:: [:: 0; 0; 0; 0]; [:: 0; 0; 0; 0];
      [:: 0; qi 5 / qi 2; qi 6; qi 5 / qi 2]; [:: 0; 0; 0; 0]].

(** The keyword arguments of a call: one major and one minor iteration,
    on the CPU, circular, with [enforce_positivity] as it defaults, and
    the loop gain [g]. *)
Definition bench_params (g : Qc) : params Qc :=
  Params None None (qi 4) g (1 / qi 2) (1 / qi 8) 1 1
    false Cpu Circular true false 0 0 false 0 0.

(** A loop gain of 10000. *)
Definition big_gain : Qc := qi 100 * qi 100.

Definition bench_session : FitsImage Qc * store Qc :=
  FitsImage_init bench_dirty bench_psf None.

(** The surroundings of the major loop for this session, as the prologue
    of [moresane] computes them. *)
Definition bench_slice : slice * slice := subregion_slice_of (4, 4) 4.
Definition bench_energies : seq Qc := psf_energies_of bench bench_psf 1.
Definition bench_state : major_state Qc :=
  major_init bench_dirty bench_slice bench_session.1.

(** One pass of the major loop with the keyword arguments [P], from
    the first state, and the state it leaves. *)
Notation bench_body P :=
  (major_body (TB := bench) P bench_dirty 1 bench_slice
     bench_psf bench_psf bench_energies [::] 2 bench_state).
Notation bench_after P := (odflt (Break, bench_state) (bench_body P)).2.

(** The sessions of other shapes: a null image, a 3 by 3 and a 6 by 6
    one. *)
Definition null_session : FitsImage Qc * store Qc :=
  FitsImage_init (np_zeros Qc 4 4) bench_psf None.
Definition odd_session : FitsImage Qc * store Qc :=
  FitsImage_init (qimg [:: [:: 0; 0; 0]; [:: 0; 4; 0]; [:: 0; 0; 0]])
    (qimg [:: [:: 0; 1; 0]; [:: 1; 6; 1]; [:: 0; 1; 0]]) None.
Definition six_dirty : image Qc :=
  qimg [:: [:: 0; 0; 0; 0; 0; 0]; [:: 0; 0; 0; 0; 0; 0];
           [:: 0; 0; 4; 2; 0; 0]; [:: 0; 0; 0; 0; 0; 0];
           [:: 0; 0; 0; 0; 0; 0]; [:: 0; 0; 0; 0; 0; 0]].
Definition six_psf : image Qc :=
  qimg [:: [:: 0; 0; 0; 0; 0; 0]; [:: 0; 0; 0; 0; 0; 0];
           [:: 0; 0; 0; 0; 0; 0]; [:: 0; 0; 2; 6; 2; 0];
           [:: 0; 0; 0; 0; 0; 0]; [:: 0; 0; 0; 0; 0; 0]].
Definition six_session : FitsImage Qc * store Qc :=
  FitsImage_init six_dirty six_psf None.

(** A minor loop on 2 by 2 images: the sources are the image of [truth]
    under the operator of the loop, on one scale, all of it kept. *)
Definition minor_psf : image Qc := qimg [:: [:: 0; 2]; [:: 1; 4]].
Definition minor_truth : image Qc := qimg [:: [:: 1; 9]; [:: 4; 0]].
Definition minor_sources : cube Qc :=
  [:: img_div (bench_convolve minor_truth minor_psf) (qi 2)].
Definition minor_mask : cube Qc := [:: qimg [:: [:: 1; 1]; [:: 1; 1]]].
Definition minor_params : params Qc :=
  Params None None (qi 4) 1 (1 / qi 2) (1 / qi 8) 1 6
    false Cpu Circular true false 0 0 false 0 0.
Definition minor_start : minor_state Qc :=
  minor_init (bench_recomposition minor_sources 0) 0.
Notation minor_step st :=
  (minor_iteration (TB := bench) minor_params minor_psf 1 0 minor_sources
     minor_mask st).
Notation minor_second := (minor_step minor_start).2.
Notation minor_third := (minor_step minor_second).2.

(** Sources on two scales whose errors cancel when the scales are
    added up, and a PSF that is a unit peak at the centre pixel. *)
Definition peak_psf : image Qc := qimg [:: [:: 0; 0]; [:: 0; 1]].
Definition two_sources : cube Qc :=
  [:: qimg [:: [:: 3; 8]; [:: 4; 0]]; qimg [:: [:: 0; 4]; [:: 2; 0]]].
Definition two_mask : cube Qc :=
  [:: qimg [:: [:: 1; 1]; [:: 1; 1]]; qimg [:: [:: 1; 1]; [:: 1; 1]]].
Definition two_start : minor_state Qc :=
  minor_init (bench_recomposition two_sources 0) 0.

(** The null session is called with the flux threshold [f]. *)
Definition null_params (f : Qc) : params Qc :=
  Params None None (qi 4) 1 (1 / qi 2) (1 / qi 8) 1 1
    false Cpu Circular true false 0 f false 0 0.

(** *** Roots of unity and arrays for [fft_convolve]

    The algebraic numbers hold a primitive root of unity of every
    order; [omegaC n] is one of order [n]. *)
Definition omegaC (n : nat) : algC := sval (C_prim_root_exists (ltn0Sn n.-1)).

Definition square_array : carray algC :=
  [:: [:: 1; 2%:R]; [:: 3%:R; 4%:R]].
Definition row_array : carray algC := [:: [:: 1; 2%:R; 3%:R]].

(** The collaborators of [fft_convolve] that the CPU does not call. *)
Definition no_gpu (a : carray algC) (padded : bool) : carray algC := a.
Definition no_scipy (a b : carray algC) : carray algC := a.

(** *** Inputs for the further properties *)

Definition is_exhausted (T : Type) (r : result T) : bool :=
  if r is Exhausted then true else false.

(** Keyword arguments with [edge_suppression], and with an odd
    [subregion]. *)
Definition edge_params : params Qc :=
  Params None None (qi 4) 1 (1 / qi 2) (1 / qi 8) 1 1
    false Cpu Circular true true 0 0 false 0 0.
Definition odd_subregion_params : params Qc :=
  Params (Some 3%N) None (qi 4) 1 (1 / qi 2) (1 / qi 8) 1 1
    false Cpu Circular true false 0 0 false 0 0.

(** The major loop of the bench, with fuel for three passes. *)
Notation bench_loop P :=
  (major_loop (TB := bench) P bench_dirty 1 bench_slice
     bench_psf bench_psf bench_energies [::] 3 bench_state).

(** The [CTYPE] values of the header of an image cube, and of headers of
    one axis. *)
Definition sky_header : seq string :=
  [:: "RA---SIN"%string; "DEC--SIN"%string; "FREQ"%string; "STOKES"%string].

Definition other_array : carray algC := [:: [:: 0; 1]; [:: 5%:R; 0]].

(** ** Part II. Properties *)

(** *** Slices and element-wise operations *)

Section SequenceFacts.
Variable T : Type.
Implicit Types (s : seq T) (f g : nat -> T -> T) (sl : slice).

Lemma size_mapi_from k f s : size (mapi_from k f s) = size s.
Proof. by elim: s k => //= v s IH k; rewrite IH. Qed.

Lemma mapi_from_comp k f g s :
  mapi_from k g (mapi_from k f s) = mapi_from k (fun i v => g i (f i v)) s.
Proof. by elim: s k => //= v s IH k; rewrite IH. Qed.

Lemma eq_mapi_from k f g s :
  (forall i v, f i v = g i v) -> mapi_from k f s = mapi_from k g s.
Proof. by move=> fg; elim: s k => //= v s IH k; rewrite fg IH. Qed.

Lemma mapi_from_id k s : mapi_from k (fun _ v => v) s = s.
Proof. by elim: s k => //= v s IH k; rewrite IH. Qed.

Lemma all_mapi_from (a : pred T) k f s :
  (forall i v, a v -> a (f i v)) -> all a s -> all a (mapi_from k f s).
Proof.
move=> af; elim: s k => //= v s IH k /andP[av als].
by rewrite af // IH.
Qed.

Lemma size_update_slice sl f s : size (update_slice sl f s) = size s.
Proof. by rewrite /update_slice size_mapi_from. Qed.

Lemma update_slice_comp sl f g s :
  update_slice sl g (update_slice sl f s)
  = update_slice sl (fun i v => g i (f i v)) s.
Proof.
rewrite /update_slice size_mapi_from mapi_from_comp.
by apply: eq_mapi_from => i v; case: (in_slice _ i).
Qed.

Lemma eq_update_slice sl f g s :
  (forall i v, f i v = g i v) -> update_slice sl f s = update_slice sl g s.
Proof.
by move=> fg; apply: eq_mapi_from => i v; case: (in_slice _ i); rewrite ?fg.
Qed.

Lemma update_slice_id sl s : update_slice sl (fun _ v => v) s = s.
Proof.
rewrite /update_slice -[RHS](mapi_from_id 0).
by apply: eq_mapi_from => i v; case: (in_slice _ i).
Qed.

Lemma all_update_slice (a : pred T) sl f s :
  (forall i v, a v -> a (f i v)) -> all a s -> all a (update_slice sl f s).
Proof.
by move=> af; apply: all_mapi_from => i v av; case: (in_slice _ i); rewrite ?af.
Qed.

(** The difference to the old value, position by position, when the
    update [f] and the update [g] are related by [h]. *)
Lemma zip_with_mapi_from (U : Type) (d : T -> T -> U) (h : U -> U) k f g s :
  (forall i v, d (f i v) v = h (d (g i v) v)) ->
  zip_with d (mapi_from k f s) s = map h (zip_with d (mapi_from k g s) s).
Proof.
by move=> fg; rewrite /zip_with; elim: s k => //= v s IH k; rewrite fg IH.
Qed.

Lemma zip_with_same (U : Type) (d : T -> T -> U) (h : U -> U) s :
  (forall v, d v v = h (d v v)) -> zip_with d s s = map h (zip_with d s s).
Proof.
by move=> dh; rewrite /zip_with; elim: s => //= v s IH; rewrite -dh -IH.
Qed.

End SequenceFacts.

Section NdarrayFacts.
Variable R : realFieldType.
Implicit Types (a b v m : image R) (rows cols : slice).

Lemma at2_img_scale c v i j : at2 (img_scale c v) i j = c * at2 v i j.
Proof.
rewrite /at2 /img_scale.
have -> : nth [::] [seq [seq c * u | u <- r] | r <- v] i
          = [seq c * u | u <- nth [::] v i].
  by elim: v i => [|r0 v IH] [|i] //=; rewrite ?IH.
by elim: (nth [::] v i) j => [|u s IH] [|j] //=; rewrite mulr0.
Qed.

(** [m[sl] += v] followed by [m[sl] -= v] restores [m]. *)
Lemma slice_iaddK rows cols v m :
  slice_isub rows cols v (slice_iadd rows cols v m) = m.
Proof.
rewrite /slice_isub /slice_iadd /update_slice2 update_slice_comp.
rewrite -[RHS](update_slice_id rows); apply: eq_update_slice => i row.
rewrite update_slice_comp -[RHS](update_slice_id cols).
by apply: eq_update_slice => j u; rewrite addrK.
Qed.

(** Adding [c] times [v] to a slice changes the array by [c] times what
    adding [v] itself changes it by. *)
Lemma slice_iadd_scale c rows cols v m :
  img_sub (slice_iadd rows cols (img_scale c v) m) m
  = img_scale c (img_sub (slice_iadd rows cols (img_scale 1 v) m) m).
Proof.
rewrite /img_sub /slice_iadd /update_slice2 /update_slice.
apply: zip_with_mapi_from => i row.
case: (in_slice _ i); last by apply: zip_with_same => u; rewrite subrr mulr0.
apply: zip_with_mapi_from => j u.
case: (in_slice _ j); last by rewrite subrr mulr0.
by rewrite !at2_img_scale; ring.
Qed.

Lemma img_sub_self_scale c m : img_sub m m = img_scale c (img_sub m m).
Proof.
rewrite /img_sub; apply: zip_with_same => row.
by apply: zip_with_same => u; rewrite subrr mulr0.
Qed.

Lemma nonneg_at2 v i j : nonneg v -> 0 <= at2 v i j.
Proof.
rewrite /at2 /nonneg => /allP nv.
have [lti|gei] := ltnP i (size v); last by rewrite (nth_default _ gei) nth_nil.
move/allP: (nv _ (mem_nth [::] lti)) => nr.
have [ltj|gej] := ltnP j (size (nth [::] v i)); last by rewrite nth_default.
exact: nr (mem_nth 0 ltj).
Qed.

Lemma nonneg_slice_iadd rows cols v m :
  nonneg v -> nonneg m -> nonneg (slice_iadd rows cols v m).
Proof.
move=> nv; apply: all_update_slice => i row; apply: all_update_slice => j u u0.
by rewrite addr_ge0 // nonneg_at2.
Qed.

Lemma nonneg_img_scale c v : 0 <= c -> nonneg v -> nonneg (img_scale c v).
Proof.
move=> c0 /allP nv; apply/allP => row /mapP[r0 /nv /allP nr ->].
by apply/allP => u /mapP[u0 /nr u00 ->]; rewrite mulr_ge0.
Qed.

Lemma nonneg_img_add a b : nonneg a -> nonneg b -> nonneg (img_add a b).
Proof.
rewrite /nonneg /img_add /zip_with.
elim: a b => [|ra a IH] [|rb b] //= /andP[nra na] /andP[nrb nb].
rewrite IH // andbT.
elim: ra rb nra nrb {IH na nb} => [|u ra IH] [|w rb] //=.
by move=> /andP[u0 nra] /andP[w0 nrb]; rewrite addr_ge0 //= IH.
Qed.

Lemma nonneg_zeros_like a : nonneg (np_zeros_like a).
Proof.
apply/allP => row /mapP[r0 _ ->]; apply/allP => u /mapP[u0 _ ->].
exact: lexx.
Qed.

Lemma nonneg_clip a : nonneg (clip_negative a).
Proof.
apply/allP => row /mapP[r0 _ ->]; apply/allP => u /mapP[u0 _ ->].
by case: ltrP.
Qed.


Lemma foldr_min_le (w u : R) (s : seq R) :
  u \in w :: s -> foldr Num.min w s <= u.
Proof.
elim: s u => [|w' s IH] u /=; first by rewrite inE => /eqP->.
rewrite ge_min !inE => /or3P[/eqP->|/eqP->|us].
- by rewrite IH ?orbT // inE eqxx.
- by rewrite lexx.
- by rewrite IH ?orbT // inE us orbT.
Qed.

Lemma seq_min_le (s : seq R) (u : R) : u \in s -> seq_min s <= u.
Proof. by case: s => // w s; apply: foldr_min_le. Qed.

Lemma foldr_max_ge (w u : R) (s : seq R) :
  u \in w :: s -> u <= foldr Num.max w s.
Proof.
elim: s u => [|w' s IH] u /=; first by rewrite inE => /eqP->.
rewrite le_max !inE => /or3P[/eqP->|/eqP->|us].
- by rewrite IH ?orbT // inE eqxx.
- by rewrite lexx.
- by rewrite IH ?orbT // inE us orbT.
Qed.

(** An array whose least entry is not negative has no negative entry. *)
Lemma nonneg_np_min a : 0 <= np_min a -> nonneg a.
Proof.
move=> m0; apply/allP => row rowa; apply/allP => u urow.
apply: le_trans m0 _; apply: seq_min_le.
by apply/flattenP; exists row.
Qed.

Lemma seq_max_zero (s : seq R) : all (fun u => u == 0) s -> seq_max s = 0.
Proof.
case: s => //= w s /andP[/eqP-> s0].
elim: s s0 => //= w' s IH /andP[/eqP-> s0].
by rewrite IH // maxxx.
Qed.

Lemma np_max_zero a : all_zero a -> np_max a = 0.
Proof.
move=> a0; apply: seq_max_zero; rewrite /ravel.
by elim: a a0 => //= row a IH /andP[r0 a0]; rewrite all_cat r0 IH.
Qed.

Lemma nth_all_zero (v : seq R) i : all (fun u => u == 0) v -> nth 0 v i = 0.
Proof.
move=> /allP v0; have [lt|ge] := ltnP i (size v); last exact: nth_default.
exact/eqP/v0/mem_nth.
Qed.

Lemma all_getslice (T : Type) (q : pred T) (sl : slice) (s : seq T) :
  all q s -> all q (getslice sl s).
Proof.
rewrite /getslice /= => qs.
have qd : all q (drop (slice_index (size s) sl.1) s).
  by rewrite -{1}(cat_take_drop (slice_index (size s) sl.1) s) all_cat in qs;
     case/andP: qs.
move: qd; set d := drop _ s; set n := (_ - _)%N.
by rewrite -{1}(cat_take_drop n d) all_cat => /andP[].
Qed.

Lemma all_zero_getslice2 rows cols a :
  all_zero a -> all_zero (getslice2 rows cols a).
Proof.
move=> a0; rewrite /all_zero /getslice2 all_map.
have := all_getslice rows a0.
by apply: sub_all => row; apply: all_getslice.
Qed.

End NdarrayFacts.

(** *** The minor loop *)



Section MinorFacts.
Variables (R : realFieldType) (TB : toolbox R) (P : params R).
Variables (psf_subregion_fft : spectrum TB) (max_scale scale_adjust : nat).
Variables (extracted_sources extracted_sources_mask : cube R).

Notation iteration :=
  (minor_iteration P psf_subregion_fft max_scale scale_adjust
     extracted_sources extracted_sources_mask).
Notation loop :=
  (minor_loop P psf_subregion_fft max_scale scale_adjust
     extracted_sources extracted_sources_mask).
Notation loop_from :=
  (minor_loop_from P psf_subregion_fft max_scale scale_adjust
     extracted_sources extracted_sources_mask).
Notation reach :=
  (minor_reach P psf_subregion_fft max_scale scale_adjust
     extracted_sources extracted_sources_mask).
Notation snr :=
  (snr_of P psf_subregion_fft max_scale scale_adjust
     extracted_sources extracted_sources_mask).
Notation xn :=
  (xn_of P psf_subregion_fft max_scale scale_adjust extracted_sources_mask).

Implicit Types st : minor_state R.

(** The five ways through the flow control of lines 448-472. *)
Variant iteration_spec st : control * minor_state R -> Type :=
| FalseDetection p2 of minor_loop_niter st = 0%N & 40%:R < snr st :
    iteration_spec st
      (Break, MinorState (x st) (r st) p2 1 (snr_current st) (snr st)
                (min_scale st).+1)
| Converged p2 of 40%:R < snr st :
    iteration_spec st
      (Break, MinorState (xn st) (r st) p2 (minor_loop_niter st).+1
                (snr_current st) (snr st) 0)
| DecreasedGood p2 of ~~ (40%:R < snr st) & (1 < minor_loop_niter st)%N
    & snr st <= snr_current st & 21%:R / 2%:R < snr st :
    iteration_spec st
      (Break, MinorState (x st) (r st) p2 (minor_loop_niter st).+1
                (snr_current st) (snr st) 0)
| DecreasedPoor p2 of ~~ (40%:R < snr st) & (1 < minor_loop_niter st)%N
    & snr st <= snr_current st & ~~ (21%:R / 2%:R < snr st) :
    iteration_spec st
      (Break, MinorState (x st) (r st) p2 (minor_loop_niter st).+1
                (snr_current st) (snr st) (min_scale st).+1)
| GoOn rn p2 of ~~ (40%:R < snr st)
    & ~~ ((1 < minor_loop_niter st)%N && (snr st <= snr_current st)) :
    iteration_spec st
      (Continue, MinorState (xn st) rn p2 (minor_loop_niter st).+1
                   (snr_current st) (snr st) (min_scale st)).

Lemma iterationP st : iteration_spec st (iteration st).
Proof.
rewrite /minor_iteration.
case E: (cg_update _ _ _ _ _ st) => [[xn1 p1] Ap] /=.
have xnE : xn st = xn1 by rewrite /xn_of E.
have -> : snr_ratio TB extracted_sources
            (project P psf_subregion_fft max_scale scale_adjust
               extracted_sources_mask xn1) = snr st.
  by rewrite /snr_of xnE.
rewrite -{}xnE eqSS ltnS.
have [big|small] := boolP (40%:R < snr st).
  case: eqP => [k0|_] /=; last exact: Converged.
  by rewrite k0; apply: FalseDetection.
rewrite andbF.
case: ifP => [/andP[k2 dec]|/negbT nodec]; last exact: GoOn.
by case: ifP => [good|/negbT poor]; [apply: DecreasedGood|apply: DecreasedPoor].
Qed.

(** The statistic never exceeds 40 dB at the head of the loop. *)
Lemma reach_snr_le40 st0 n st :
  ~~ (40%:R < snr_current st0) -> reach st0 n st ->
  ~~ (40%:R < snr_current st).
Proof.
move=> le0; elim=> // {}n {}st st' _ _ _.
by case: iterationP => // rn p2 small _ [<-].
Qed.

Lemma reach_niter st0 n st :
  reach st0 n st -> minor_loop_niter st = (minor_loop_niter st0 + n)%N.
Proof.
elim=> [|{}n {}st st' _ IH _]; first by rewrite addn0.
by case: iterationP => // rn p2 _ _ [<-] /=; rewrite IH addnS.
Qed.

(** A pass that leaves the loop ends it; one that does not hands over to
    the loop from the next state. *)
Lemma loop_step st :
  (minor_loop_niter st < minor_loop_miter P)%N ->
  loop st = if (iteration st).1 is Break then (iteration st).2
            else loop (iteration st).2.
Proof.
move=> lt; rewrite /minor_loop.
have -> : (minor_loop_miter P - minor_loop_niter st
           = (minor_loop_miter P - (minor_loop_niter st).+1).+1)%N.
  by rewrite subnSK.
rewrite /= lt.
by case: iterationP.
Qed.

Lemma loop_done st :
  (minor_loop_miter P <= minor_loop_niter st)%N -> loop st = st.
Proof.
rewrite /minor_loop -subn_eq0 => /eqP-> /=.
by [].
Qed.

Lemma loop_reach st0 n st : reach st0 n st -> loop st0 = loop st.
Proof.
elim=> // {}n {}st st' _ -> lt it.
by rewrite (loop_step lt) it.
Qed.

(** With [enforce_positivity], the updated solution has no negative
    entry. *)
Lemma nonneg_xn st : enforce_positivity P -> nonneg (xn st).
Proof.
move=> ep; rewrite /xn_of /cg_update ep andbT.
case: ltrP => [_|ge0] /=; first exact: nonneg_clip.
exact: nonneg_np_min.
Qed.

Lemma nonneg_iteration st :
  enforce_positivity P -> nonneg (x st) -> nonneg (x (iteration st).2).
Proof.
by move=> ep nx; case: iterationP => *; rewrite /= ?nonneg_xn.
Qed.

Lemma nonneg_loop_from fuel st :
  enforce_positivity P -> nonneg (x st) -> nonneg (x (loop_from fuel st)).
Proof.
move=> ep; elim: fuel st => //= fuel IH st nx.
case: ifP => // _.
have := nonneg_iteration ep nx.
by case: (iteration st) => [[] st'] //=; apply: IH.
Qed.

Lemma nonneg_loop st :
  enforce_positivity P -> nonneg (x st) -> nonneg (x (loop st)).
Proof. exact: nonneg_loop_from. Qed.

(** C5 (as amended): every pass of the minor loop computes its statistic
    as [tools.snr_ratio] of [extracted_sources] and of the masked
    decomposition of the convolved update [xn]: both arguments are cubes
    of wavelet coefficients, neither is recomposed into an image; the
    previous value of the statistic is kept in [snr_last]. *)
Theorem snr_statistic_of_wavelet_cubes st :
  snr_current (iteration st).2
  = snr_ratio TB extracted_sources
      (cube_mul extracted_sources_mask
         (iuwt_decomposition TB
            (conv_fft_convolve (xn st) psf_subregion_fft (conv_device P)
               (conv_mode P))
            max_scale scale_adjust))
  /\ snr_last (iteration st).2 = snr_current st.
Proof. by case: iterationP. Qed.

(** C2: in a pass of the minor loop that is at least the third, whose
    statistic does not exceed the previous one and is above 10.5 dB, the
    loop is left with [x] as it was before the update ([xn] is not
    written to it) and with [min_scale] reset to 0; this [x] is what the
    minor loop hands to the major loop. *)
Theorem snr_decrease_accepts_previous_x b ms0 n st :
  reach (minor_init b ms0) n st ->
  (minor_loop_niter st < minor_loop_miter P)%N ->
  (2 < (minor_loop_niter st).+1)%N ->
  snr st <= snr_current st ->
  21%:R / 2%:R < snr st ->
  [/\ (iteration st).1 = Break,
      x (iteration st).2 = x st,
      min_scale (iteration st).2 = 0%N
    & loop (minor_init b ms0) = (iteration st).2].
Proof.
move=> rch lt k2 dec good.
have le40 : ~~ (40%:R < snr st).
  have := reach_snr_le40 _ rch; rewrite /= ltNge ler0n => /(_ isT).
  by rewrite -!leNgt; apply: le_trans.
rewrite (loop_reach rch) (loop_step lt).
case: iterationP => [p2 k0|p2 big|p2 _ _ _ _|p2 _ _ _ poor|rn p2 _ nodec] //=.
- by rewrite k0 in k2.
- by rewrite big in le40.
- by rewrite good in poor.
- by rewrite -ltnS k2 dec in nodec.
Qed.

(** The solution a pass leaves behind is the old one or the update. *)
Lemma x_iteration st :
  x (iteration st).2 = x st \/ x (iteration st).2 = xn st.
Proof. by case: iterationP => *; [left|right|left|left|right]. Qed.

(** The minor loop does not read the loop gain. *)
Lemma minor_iteration_gain g st :
  minor_iteration (with_loop_gain g P) psf_subregion_fft max_scale
    scale_adjust extracted_sources extracted_sources_mask st
  = iteration st.
Proof. by []. Qed.

Lemma minor_loop_gain g st :
  minor_loop (with_loop_gain g P) psf_subregion_fft max_scale
    scale_adjust extracted_sources extracted_sources_mask st
  = loop st.
Proof.
rewrite /minor_loop /=.
by elim: (_ - _)%N st => //= fuel IH st.
Qed.

End MinorFacts.

(** *** The major loop *)

Section MajorFacts.
Variables (R : realFieldType) (TB : toolbox R) (P : params R).
Variable dirty_data : image R.
Variable the_scale_count : nat.
Variable subregion_slice : slice * slice.
Variables (psf_subregion_fft psf_data_fft : spectrum TB).
Variable psf_energies : seq R.
Variable suppression_array : cube R.

Notation pass :=
  (inner_pass P the_scale_count subregion_slice psf_subregion_fft
     psf_energies suppression_array).
Notation inner :=
  (inner_while P the_scale_count subregion_slice psf_subregion_fft
     psf_energies suppression_array).
Notation step :=
  (deconvolution_step P dirty_data subregion_slice psf_data_fft).
Notation after :=
  (after_inner P dirty_data the_scale_count subregion_slice psf_data_fft).
Notation body :=
  (major_body P dirty_data the_scale_count subregion_slice
     psf_subregion_fft psf_data_fft psf_energies suppression_array).
Notation mloop :=
  (major_loop P dirty_data the_scale_count subregion_slice
     psf_subregion_fft psf_data_fft psf_energies suppression_array).
Notation residual_of' := (residual_of P dirty_data psf_data_fft).

Implicit Types st : major_state R.

(** What the inner loops leave alone. *)
Definition same_outer st st' : Prop :=
  [/\ major_loop_niter st' = major_loop_niter st,
      model st' = model st, residual st' = residual st &
      [/\ std_current st' = std_current st, std_last st' = std_last st,
          std_ratio st' = std_ratio st,
          dirty_subregion st' = dirty_subregion st & self st' = self st]].

Lemma same_outer_refl st : same_outer st st.
Proof. by []. Qed.

Lemma same_outer_trans st1 st2 st3 :
  same_outer st1 st2 -> same_outer st2 st3 -> same_outer st1 st3.
Proof.
move=> [a1 a2 a3 [a4 a5 a6 a7 a8]] [b1 b2 b3 [b4 b5 b6 b7 b8]].
by split; [| | |split]; etransitivity; eassumption.
Qed.

(** The outcome of a pass of the inner loop: either no coefficient is
    left, or the minor loop has run from a zero solution. *)
Variant pass_spec st : control * major_state R -> Type :=
| NoSignal st' of same_outer st st' & max_coeff st' = 0
    & minor st' = minor st : pass_spec st (Break, st')
| Fitted c st' ms E M ma sa b of same_outer st st'
    & minor st' = ms \/ minor st' = set_min_scale 0 ms
    & ms = minor_loop P psf_subregion_fft ma sa E M
             (minor_init b (min_scale (minor st))) :
    pass_spec st (c, st').

Lemma passP st : pass_spec st (pass st).
Proof.
rewrite /inner_pass.
case: (if _ then _ else _) => th nsm.
case: ifP => [/eqP mc0|_]; first exact: NoSignal.
case: (source_extraction _ _ _ _) => E M.
set ms := minor_loop _ _ _ _ _ _ _.
by case: ifP => _; [|case: ifP => _];
   apply: (@Fitted _ _ _ ms E M _ _ _ _ _ (erefl ms)) => //=; [right|left|left].
Qed.

Lemma same_outer_pass st : same_outer st (pass st).2.
Proof. by case: passP. Qed.

Lemma same_outer_inner fuel st st' :
  inner fuel st = Some st' -> same_outer st st'.
Proof.
elim: fuel st => [|fuel IH] st /=; case: ifP => _ //; try by case=> <-.
have := same_outer_pass st.
case: (pass st) => [[] st1] /= so; first by case=> <-.
by move/IH; apply: same_outer_trans.
Qed.

Lemma nonneg_x_pass st :
  enforce_positivity P -> nonneg (x (minor st)) ->
  nonneg (x (minor (pass st).2)).
Proof.
move=> ep nx; case: passP => [st' _ _ -> //|c st' ms E M ma sa b _ mE msE] /=.
have nl : nonneg (x ms).
  by rewrite msE; apply: nonneg_loop => //; apply: nonneg_zeros_like.
by case: mE => ->.
Qed.

Lemma nonneg_x_inner fuel st st' :
  enforce_positivity P -> nonneg (x (minor st)) ->
  inner fuel st = Some st' -> nonneg (x (minor st')).
Proof.
move=> ep; elim: fuel st => [|fuel IH] st nx /=;
  case: ifP => _ //; try by case=> <-.
have := nonneg_x_pass ep nx.
case: (pass st) => [[] st1] /= n1; first by case=> <-.
exact: IH.
Qed.


Lemma niter_step st : major_loop_niter (step st) = (major_loop_niter st).+1.
Proof. by []. Qed.

Lemma model_step st :
  model (step st)
  = if std_ratio (step st) < 0 then model st
    else accrete P subregion_slice (x (minor st)) (model st).
Proof. by rewrite /=; case: ifP => // _; rewrite /revert /accrete slice_iaddK. Qed.

(** A pass of the major loop that counts as an iteration has made the
    deconvolution step from a state the inner loop left. *)
Lemma body_counted fuel st c st' :
  body fuel st = Some (c, st') ->
  major_loop_niter st' = (major_loop_niter st).+1 ->
  exists2 st1, inner fuel st = Some st1 & st' = step st1.
Proof.
rewrite /major_body; case E: (inner fuel st) => [st1|] //= [].
have [n1 _ _ _] := same_outer_inner E.
rewrite /after_inner; case: ifP => _.
  by case=> _ <-; rewrite n1 => e; case: (n_Sn _ e).
case: (0 < max_coeff st1) => /=; first by case=> _ <- _; exists st1.
by case: ifP => _ [_ <-] /=; rewrite n1 => e; case: (n_Sn _ e).
Qed.

(** The four ways through lines 487-529. *)
Variant after_spec st : control * major_state R -> Type :=
| Stalled of min_scale (minor st) = the_scale_count :
    after_spec st (Break, st)
| Stepped of 0 < max_coeff st : after_spec st (Continue, step st)
| NoWork of ~~ (0 < max_coeff st) & major_loop_niter st = 0%N :
    after_spec st (Break, mark_complete st)
| Idle of ~~ (0 < max_coeff st) & major_loop_niter st != 0%N :
    after_spec st (Continue, st).

Lemma afterP st : after_spec st (after st).
Proof.
rewrite /after_inner; case: eqP => [stall|_]; first exact: Stalled.
case: (boolP (0 < max_coeff st)) => [pos|npos] /=; first exact: Stepped.
by case: eqP => [n0|/eqP n0]; [apply: NoWork|apply: Idle].
Qed.

(** The residual is the dirty image minus the convolved model from the
    first counted iteration on. *)
Definition residual_inv st : Prop :=
  (0 < major_loop_niter st)%N -> residual st = residual_of' (model st).

Lemma residual_inv_body fuel st c st' :
  body fuel st = Some (c, st') -> residual_inv st -> residual_inv st'.
Proof.
rewrite /major_body; case E: (inner fuel st) => [st1|] //= [].
have [n1 m1 r1 _] := same_outer_inner E.
have inv1 : residual_inv st -> residual_inv st1.
  by rewrite /residual_inv n1 m1 r1.
by case: afterP => [_|_|_ _|_ _] [_ <-] // /inv1.
Qed.

Lemma residual_inv_loop fuel st st' :
  mloop fuel st = Some st' -> residual_inv st -> residual_inv st'.
Proof.
elim: fuel st => [|fuel IH] st /=; case: ifP => _ //; try by case=> <-.
case E: (body fuel st) => [[[] st1]|] //.
  by case=> <-; apply: residual_inv_body E.
by move=> /IH h /(residual_inv_body E).
Qed.

(** With [enforce_positivity] and a loop gain that is not negative,
    neither the model nor the solution of the minor loop has a negative
    entry. *)
Definition positive_inv st : Prop :=
  nonneg (model st) /\ nonneg (x (minor st)).

Lemma nonneg_model_step st :
  0 <= loop_gain P -> positive_inv st -> nonneg (model (step st)).
Proof.
move=> g0 [nm nx]; rewrite model_step; case: ifP => // _.
by apply: nonneg_slice_iadd => //; apply: nonneg_img_scale.
Qed.

Lemma positive_inv_body fuel st c st' :
  enforce_positivity P -> 0 <= loop_gain P ->
  body fuel st = Some (c, st') -> positive_inv st -> positive_inv st'.
Proof.
move=> ep g0; rewrite /major_body; case E: (inner fuel st) => [st1|] //= [].
have [_ m1 _ _] := same_outer_inner E.
move=> aE [nm nx]; have nx1 := nonneg_x_inner ep nx E.
have inv1 : positive_inv st1 by split=> //; rewrite m1.
case: afterP aE => [_|_|_ _|_ _] [_ <-] //.
by split=> //; apply: nonneg_model_step.
Qed.

Lemma positive_inv_loop fuel st st' :
  enforce_positivity P -> 0 <= loop_gain P ->
  mloop fuel st = Some st' -> positive_inv st -> positive_inv st'.
Proof.
move=> ep g0; elim: fuel st => [|fuel IH] st /=;
  case: ifP => _ //; try by case=> <-.
case E: (body fuel st) => [[[] st1]|] //.
  by case=> <-; apply: positive_inv_body E.
by move=> /IH h /(positive_inv_body ep g0 E).
Qed.

(** The loops change nothing of the session but its [complete] flag. *)
Definition same_refs (s s' : FitsImage R) : Prop :=
  s' = set_complete (self_complete s') s.

Lemma same_refs_refl s : same_refs s s.
Proof. by case: s. Qed.

Lemma same_refs_body fuel st c st' :
  body fuel st = Some (c, st') -> same_refs (self st) (self st').
Proof.
rewrite /major_body; case E: (inner fuel st) => [st1|] //= [].
have [_ _ _ [_ _ _ _ s1]] := same_outer_inner E.
case: afterP => [_|_|_ _|_ _] [_ <-] /=; rewrite ?s1 //;
  exact: same_refs_refl.
Qed.

Lemma same_refs_trans s1 s2 s3 :
  same_refs s1 s2 -> same_refs s2 s3 -> same_refs s1 s3.
Proof. by rewrite /same_refs => -> ->. Qed.

Lemma same_refs_loop fuel st st' :
  mloop fuel st = Some st' -> same_refs (self st) (self st').
Proof.
elim: fuel st => [|fuel IH] st /=; case: ifP => _ //;
  try by case=> <-; apply: same_refs_refl.
case E: (body fuel st) => [[[] st1]|] //.
  by case=> <-; apply: same_refs_body E.
by move=> /IH; apply: same_refs_trans (same_refs_body E).
Qed.

(** The inner loops do not read the loop gain. *)
Lemma pass_loop_gain g st :
  inner_pass (with_loop_gain g P) the_scale_count subregion_slice
    psf_subregion_fft psf_energies suppression_array st
  = pass st.
Proof.
rewrite /inner_pass /analyse /=.
case: (if _ then _ else _) => th nsm.
by case: ifP.
Qed.

Lemma inner_loop_gain g fuel st :
  inner_while (with_loop_gain g P) the_scale_count subregion_slice
    psf_subregion_fft psf_energies suppression_array fuel st
  = inner fuel st.
Proof.
by elim: fuel st => [|fuel IH] st //=; case: ifP.
Qed.

(** A pass of the inner loop that finds every scale empty. *)
Lemma pass_no_signal st :
  min_scale (minor st) = 0%N ->
  all (fun u => u == 0)
    (analyse TB P the_scale_count subregion_slice psf_energies
       suppression_array (self_mask (self st)) (dirty_subregion st)).2 ->
  exists th nsm, pass st = (Break, set_analysis th nsm 0 st).
Proof.
rewrite /inner_pass => ->; rewrite eqxx.
case: (analyse _ _ _ _ _ _ _ _) => th nsm /= z.
by exists th, nsm; rewrite (nth_all_zero _ z) eqxx.
Qed.

Lemma inner_one_break fuel st st' :
  (min_scale (minor st) < the_scale_count)%N ->
  pass st = (Break, st') -> inner fuel.+1 st = Some st'.
Proof. by move=> /= -> ->. Qed.

Lemma loop_one_break fuel st st' :
  major_guard P st -> body fuel st = Some (Break, st') ->
  mloop fuel.+1 st = Some st'.
Proof. by move=> /= -> ->. Qed.

(** C1: at the end of every pass of the major loop that counts as an
    iteration (it made the deconvolution step of lines 494-521, kept or
    reverted), the residual is the dirty image minus the convolution of
    the model with the PSF. *)
Theorem residual_identity fuel st c st' :
  major_body P dirty_data the_scale_count subregion_slice psf_subregion_fft
    psf_data_fft psf_energies suppression_array fuel st
  = Some (c, st') ->
  major_loop_niter st' = (major_loop_niter st).+1 ->
  residual st'
  = img_sub dirty_data
      (conv_fft_convolve (model st') psf_data_fft (conv_device P)
         (conv_mode P)).
Proof. by move=> bE /(body_counted bE)[st1 _ ->]. Qed.


End MajorFacts.

Section LoopGain.
Variables (R : realFieldType) (TB : toolbox R) (P : params R).
Variable dirty_data : image R.
Variable the_scale_count : nat.
Variable subregion_slice : slice * slice.
Variables (psf_subregion_fft psf_data_fft : spectrum TB).
Variable psf_energies : seq R.
Variable suppression_array : cube R.

(** C9 (as amended): take one pass of the major loop from the same state
    with loop gain [g] and with loop gain [1].  The two passes hand the
    same solution [x] to the deconvolution step, and when they agree on
    reverting ([std_ratio < 0] in both or in neither), the change of the
    model with gain [g] is [g] times its change with gain [1]. *)
Theorem loop_gain_law g fuel st cg stg c1 st1 :
  major_body (with_loop_gain g P) dirty_data the_scale_count
    subregion_slice psf_subregion_fft psf_data_fft psf_energies
    suppression_array fuel st = Some (cg, stg) ->
  major_body (with_loop_gain 1 P) dirty_data the_scale_count
    subregion_slice psf_subregion_fft psf_data_fft psf_energies
    suppression_array fuel st = Some (c1, st1) ->
  (std_ratio stg < 0) = (std_ratio st1 < 0) ->
  x (minor stg) = x (minor st1)
  /\ img_sub (model stg) (model st)
     = img_scale g (img_sub (model st1) (model st)).
Proof.
rewrite /major_body !inner_loop_gain.
case E: (inner_while _ _ _ _ _ _ fuel st) => [st2|] //= [Eg] [E1].
have [_ m2 _ _] := same_outer_inner E.
move: Eg E1; rewrite /after_inner.
case: ifP => _; first by move=> [_ <-] [_ <-]; rewrite m2 -img_sub_self_scale.
case: (0 < max_coeff st2); last first.
  by case: ifP => _ [_ <-] [_ <-]; rewrite m2 -img_sub_self_scale.
rewrite !niter_step /= => -[_ <-] [_ <-] agree; split=> //.
rewrite !model_step -agree; case: ifP => _.
  by rewrite m2 -img_sub_self_scale.
by rewrite /accrete m2 [loop_gain _]/= slice_iadd_scale.
Qed.

End LoopGain.

(** *** [moresane] and [moresane_by_scale] *)

Section MoresaneFacts.
Variables (R : realFieldType) (TB : toolbox R).
Implicit Types (P : params R) (s : FitsImage R) (h : store R).

Lemma loop_gain_resolve P : loop_gain (resolve_devices P) = loop_gain P.
Proof. by rewrite /resolve_devices; case: ifP. Qed.

Lemma enforce_positivity_resolve P :
  enforce_positivity (resolve_devices P) = enforce_positivity P.
Proof. by rewrite /resolve_devices; case: ifP. Qed.

Lemma flux_threshold_resolve P :
  flux_threshold (resolve_devices P) = flux_threshold P.
Proof. by rewrite /resolve_devices; case: ifP. Qed.

Lemma major_loop_miter_resolve P :
  major_loop_miter (resolve_devices P) = major_loop_miter P.
Proof. by rewrite /resolve_devices; case: ifP. Qed.

Lemma accuracy_resolve P : accuracy (resolve_devices P) = accuracy P.
Proof. by rewrite /resolve_devices; case: ifP. Qed.

(** The ways [moresane] ends. *)
Variant moresane_spec fuel P s h : result (FitsImage R * store R) -> Type :=
| OddSize of odd (self_dirty_data_shape s).1 :
    moresane_spec fuel P s h (Raise ValueError)
| NoSize of (self_dirty_data_shape s).1 = 0%N :
    moresane_spec fuel P s h (Raise OverflowError)
| Ran st of ~~ odd (self_dirty_data_shape s).1
    & (self_dirty_data_shape s).1 != 0%N
    & run_major_loop TB fuel P s h = Some st :
    moresane_spec fuel P s h (Return (publish st h))
| OutOfFuel of run_major_loop TB fuel P s h = None :
    moresane_spec fuel P s h Exhausted.

Lemma moresaneP fuel P s h : moresane_spec fuel P s h (moresane TB fuel P s h).
Proof.
rewrite /moresane; case: (boolP (odd _)) => [o|e]; first exact: OddSize.
case: eqP => [z|/eqP nz]; first exact: NoSize.
by case E: (run_major_loop _ _ _ _ _) => [st|]; [apply: Ran|apply: OutOfFuel].
Qed.

Lemma run_same_refs fuel P s h st :
  run_major_loop TB fuel P s h = Some st -> same_refs s (self st).
Proof. by move/same_refs_loop. Qed.

Lemma same_refs_model s s' : same_refs s s' -> self_model s' = self_model s.
Proof. by move->. Qed.

Lemma same_refs_dirty s s' :
  same_refs s s' -> self_dirty_data s' = self_dirty_data s.
Proof. by move->. Qed.

(** What [publish] does to the store: the array of the model receives
    the model of the call, one array is added, the others stay. *)
Lemma deref_set_nth h l (v : image R) : deref (set_nth [::] h l v) l = v.
Proof. by rewrite /deref nth_set_nth /= eqxx. Qed.

Lemma publish_model st h :
  deref (publish st h).2 (self_model (publish st h).1)
  = if (0 < major_loop_niter st)%N
    then img_add (deref h (self_model (self st))) (model st)
    else deref h (self_model (self st)).
Proof.
rewrite /publish; case: ifP => _ //=.
rewrite /deref nth_rcons size_set_nth leq_max ltnSn /=.
by rewrite nth_set_nth /= eqxx.
Qed.

Lemma publish_frame st h l :
  (l < size h)%N -> l != self_model (self st) ->
  deref (publish st h).2 l = deref h l.
Proof.
move=> lt ne; rewrite /publish; case: ifP => _ //=.
rewrite /deref nth_rcons size_set_nth leq_max lt orbT.
by rewrite nth_set_nth /= (negbTE ne).
Qed.

Lemma publish_size st h : (size h <= size (publish st h).2)%N.
Proof.
rewrite /publish; case: ifP => _ //=.
by rewrite size_rcons size_set_nth leqW // leq_max leqnn orbT.
Qed.

Lemma publish_refs st h :
  [/\ self_dirty_data (publish st h).1 = self_dirty_data (self st),
      self_model (publish st h).1 = self_model (self st),
      self_psf_data (publish st h).1 = self_psf_data (self st)
    & self_complete (publish st h).1 = self_complete (self st)].
Proof. by rewrite /publish; case: ifP. Qed.

(** A call of [moresane] that returns leaves every array of the store
    but the model's as it was, and the session's references to the
    dirty image, the PSF and the model. *)
Lemma moresane_frame fuel P s h s' h' :
  moresane TB fuel P s h = Return (s', h') ->
  [/\ self_dirty_data s' = self_dirty_data s,
      self_model s' = self_model s,
      (size h <= size h')%N
    & forall l, (l < size h)%N -> l != self_model s ->
        deref h' l = deref h l].
Proof.
case: moresaneP => // st _ _ /run_same_refs sr [E].
have -> : s' = (publish st h).1 by rewrite E.
have -> : h' = (publish st h).2 by rewrite E.
have [-> -> _ _] := publish_refs st h.
rewrite (same_refs_model sr) (same_refs_dirty sr); split=> //.
  exact: publish_size.
by move=> l lt ne; apply: publish_frame; rewrite // (same_refs_model sr).
Qed.

Lemma by_scale_frame fuel P stop k c s h s' h' :
  by_scale_loop TB fuel P stop k c s h = Return (s', h') ->
  [/\ self_model s' = self_model s,
      (size h <= size h')%N
    & forall l, (l < size h)%N -> l != self_model s ->
        deref h' l = deref h l].
Proof.
elim: k c s h => [|k IH] c s h /=; case: ifP => _ //; try by case=> <- <-.
case E: (moresane _ _ _ _ _) => [[s1 h1]| |] //.
have [_ m1 sz1 fr1] := moresane_frame E.
have done1 : Return (set_dirty_data (self_residual s1) s1, h1) = Return (s', h')
    -> [/\ self_model s' = self_model s, (size h <= size h')%N
         & forall l, (l < size h)%N -> l != self_model s ->
             deref h' l = deref h l].
  by case=> <- <-.
case: ifP => _ //; case: ifP => _ // /IH[/= m2 sz2 fr2].
split; first by rewrite m2.
  exact: leq_trans sz1 sz2.
move=> l lt ne; rewrite fr2 ?fr1 ?m1 //.
exact: leq_trans lt sz1.
Qed.

Lemma major_loop_guard_false P dirty n sl f1 f2 en sup fuel
    (st : major_state R) :
  major_guard P st = false ->
  major_loop (TB := TB) P dirty n sl f1 f2 en sup fuel st = Some st.
Proof. by case: fuel => [|fuel] /= ->. Qed.

Lemma all_zero_zeros_like (a : image R) : all_zero (np_zeros_like a).
Proof.
apply/allP => row /mapP[r0 _ ->]; apply/allP => u /mapP[u0 _ ->].
exact: eqxx.
Qed.

(** C8 (as amended): [moresane] raises [ValueError] at once, whatever
    its other inputs, when the first dimension of the dirty image is
    odd; so does [moresane_by_scale] on a session that is not complete. *)
Theorem odd_image_raises fuel P start stop s h :
  odd (self_dirty_data_shape s).1 ->
  moresane TB fuel P s h = Raise ValueError
  /\ (~~ self_complete s ->
      moresane_by_scale TB fuel P start stop s h = Raise ValueError).
Proof.
move=> o; have mE c : moresane TB fuel (with_scale_count P c) s h
                      = Raise ValueError by rewrite /moresane o.
split; first by rewrite /moresane o.
by rewrite /moresane_by_scale /= => /negbTE->; rewrite mE.
Qed.

(** C10: when [moresane_by_scale] returns, the session refers to the
    dirty array it referred to at the start, that array is as it was,
    and [complete] is [False]; the model's array is the only array of
    the store at the start that may have changed. *)
Theorem by_scale_restores_dirty fuel P start stop s h s' h' :
  moresane_by_scale TB fuel P start stop s h = Return (s', h') ->
  (self_dirty_data s < size h)%N ->
  self_dirty_data s != self_model s ->
  [/\ self_dirty_data s' = self_dirty_data s,
      deref h' (self_dirty_data s') = deref h (self_dirty_data s),
      self_complete s' = false
    & forall l, (l < size h)%N -> l != self_model s ->
        deref h' l = deref h l].
Proof.
rewrite /moresane_by_scale.
case E: (by_scale_loop _ _ _ _ _ _ _ _) => [[s1 h1]| |] // [<- <-] lt ne /=.
have [_ _ fr] := by_scale_frame E.
by split=> //; apply: fr.
Qed.

(** C6 (as amended): with [enforce_positivity] and a loop gain that is
    not negative, a call of [moresane] that finds the model of the
    session without a negative entry leaves it so, and every pass of
    its major loop keeps the model of the call, and the solution of the
    minor loop, without a negative entry. *)
Theorem model_stays_nonneg fuel P s h s' h' :
  enforce_positivity P -> 0 <= loop_gain P ->
  moresane TB fuel P s h = Return (s', h') ->
  nonneg (deref h (self_model s)) ->
  nonneg (deref h' (self_model s'))
  /\ forall dirty n sl f1 f2 en sup f st c st',
       major_body (TB := TB) (resolve_devices P) dirty n sl f1 f2 en sup f st
       = Some (c, st') ->
       positive_inv st -> positive_inv st'.
Proof.
move=> ep g0 mE nm; split; last first.
  move=> dirty n sl f1 f2 en sup f st c st'; apply: positive_inv_body.
    by rewrite enforce_positivity_resolve.
  by rewrite loop_gain_resolve.
case: moresaneP mE => // st _ _ rE [E].
have -> : s' = (publish st h).1 by rewrite E.
have -> : h' = (publish st h).2 by rewrite E.
rewrite publish_model (same_refs_model (run_same_refs rE)).
case: ifP => // _; apply: nonneg_img_add => //.
have [] // := positive_inv_loop _ _ rE.
- by rewrite enforce_positivity_resolve.
- by rewrite loop_gain_resolve.
- by split=> //; apply: nonneg_zeros_like.
Qed.

(** C3 (as amended): on a dirty image that is all zeros [moresane]
    counts no iteration and leaves the store, hence the model, as it
    is.  When [flux_threshold] is not negative (it is 0 by default) the
    condition of the major loop fails before the first pass: no pass is
    made and [max_coeff] keeps its first value 1.  When [flux_threshold]
    is negative, and the loop may start, and the analysis of the zero
    image finds every scale empty, the first pass is made and is the
    last: it finds [max_coeff = 0], counts no iteration and sets
    [complete]. *)
Theorem null_input fuel P s h :
  all_zero (deref h (self_dirty_data s)) ->
  ~~ odd (self_dirty_data_shape s).1 ->
  (self_dirty_data_shape s).1 != 0%N ->
  (0 <= flux_threshold P ->
     [/\ major_guard (resolve_devices P) (first_state P s h) = false,
         run_major_loop TB fuel P s h = Some (first_state P s h),
         max_coeff (first_state P s h) = 1,
         all_zero (model (first_state P s h))
       & moresane TB fuel P s h = Return (s, h)])
  /\ (flux_threshold P < 0 ->
      (0 < major_loop_miter P)%N -> accuracy P < 1 ->
      (0 < resolve_scale_count (resolve_devices P)
             (self_dirty_data_shape s).1)%N ->
      all (fun u => u == 0) (first_maxima TB P s h) ->
      exists st,
        [/\ major_guard (resolve_devices P) (first_state P s h),
            first_pass TB fuel.+1 P s h = Some (Break, st),
            max_coeff st = 0 /\ major_loop_niter st = 0%N,
            all_zero (model st)
          & moresane TB fuel.+2 P s h = Return (set_complete true s, h)]).
Proof.
move=> z e nz.
have zsub sl : np_max (in_subregion sl (deref h (self_dirty_data s))) = 0.
  exact/np_max_zero/all_zero_getslice2.
split=> [f0|f0 it ac sc mx].
  have gE : major_guard (resolve_devices P) (first_state P s h) = false.
    by rewrite /major_guard /= zsub flux_threshold_resolve (le_gtF f0) !andbF.
  have rE : run_major_loop TB fuel P s h = Some (first_state P s h).
    by rewrite /run_major_loop major_loop_guard_false.
  split=> //; first exact: all_zero_zeros_like.
  by rewrite /moresane (negbTE e) (negbTE nz) rE.
have gE : major_guard (resolve_devices P) (first_state P s h).
  rewrite /major_guard /= zsub major_loop_miter_resolve it ltr01.
  by rewrite accuracy_resolve ac flux_threshold_resolve f0.
pose ffts :=
  psf_spectra TB (resolve_devices P) (deref h (self_psf_data s))
    (self_psf_data_shape s) (self_dirty_data_shape s)
    (resolve_subregion (resolve_devices P) (self_dirty_data_shape s).1).
have [th [nsm pE]] :=
  pass_no_signal ffts.1
    (erefl : min_scale (minor (first_state P s h)) = 0%N) mx.
have iE :=
  inner_one_break fuel
    (sc : (min_scale (minor (first_state P s h)) < _)%N) pE.
exists (mark_complete (set_analysis th nsm 0 (first_state P s h))).
have fE : first_pass TB fuel.+1 P s h
          = Some (Break, mark_complete
                           (set_analysis th nsm 0 (first_state P s h))).
  rewrite /first_pass /major_body iE /= /after_inner /=.
  by rewrite eq_sym (gtn_eqF sc) ltxx.
split=> //; first exact: all_zero_zeros_like.
rewrite /moresane (negbTE e) (negbTE nz) /run_major_loop.
by rewrite (loop_one_break gE fE).
Qed.

End MoresaneFacts.

(** *** The circular convolution of [fft_convolve] *)

Section FftFacts.
Variable C : numClosedFieldType.
Variable omega : nat -> C.

Notation carray := (carray C).

Implicit Types (a b : carray) (h w : nat).

(** Arrays, entry by entry. *)

Lemma has_shapeP h w a :
  has_shape h w a -> size a = h /\ forall i, (i < h)%N -> size (nth [::] a i) = w.
Proof.
case/andP=> /eqP <- /allP sz; split=> // i lt.
by apply/eqP/sz/mem_nth.
Qed.

Lemma height_mkseq (f : nat -> seq C) h : height (mkseq f h) = h.
Proof. by rewrite /height size_mkseq. Qed.

Lemma width_mkseq (f : nat -> nat -> C) h w :
  (0 < h)%N -> width (mkseq (fun i => mkseq (f i) w) h) = w.
Proof. by case: h => // h _; rewrite /width /mkseq /= size_map size_iota. Qed.

Lemma cat2_mkseq (f : nat -> nat -> C) h w i j :
  (i < h)%N -> (j < w)%N ->
  cat2 (mkseq (fun i => mkseq (f i) w) h) i j = f i j.
Proof. by move=> lti ltj; rewrite /cat2 !nth_mkseq. Qed.

Lemma has_shape_mkseq (f : nat -> nat -> C) h w :
  has_shape h w (mkseq (fun i => mkseq (f i) w) h).
Proof.
rewrite /has_shape size_mkseq eqxx /=.
by apply/allP=> row /mapP[i _ ->]; rewrite size_mkseq.
Qed.

Lemma mkseq_cat2 h w a :
  has_shape h w a -> a = mkseq (fun i => mkseq (cat2 a i) w) h.
Proof.
case/has_shapeP=> sa sr; apply: (@eq_from_nth _ [::]).
  by rewrite size_mkseq.
rewrite sa => i lt; rewrite nth_mkseq //.
apply: (@eq_from_nth _ 0); first by rewrite size_mkseq sr.
by rewrite sr // => j ltj; rewrite nth_mkseq.
Qed.

Lemma eq_mkseq2 (f g : nat -> nat -> C) h w :
  (forall i j, (i < h)%N -> (j < w)%N -> f i j = g i j) ->
  mkseq (fun i => mkseq (f i) w) h = mkseq (fun i => mkseq (g i) w) h.
Proof.
move=> fg; apply: (@eq_from_nth _ [::]); first by rewrite !size_mkseq.
rewrite size_mkseq => i lt; rewrite !nth_mkseq //.
apply: (@eq_from_nth _ 0); first by rewrite !size_mkseq.
by rewrite size_mkseq => j ltj; rewrite !nth_mkseq // fg.
Qed.

Lemma cmul_mkseq (f g : nat -> nat -> C) h w :
  cmul (mkseq (fun i => mkseq (f i) w) h) (mkseq (fun i => mkseq (g i) w) h)
  = mkseq (fun i => mkseq (fun j => f i j * g i j) w) h.
Proof.
rewrite /cmul /zip_with /mkseq.
elim: (iota 0 h) => //= i s ->; congr (_ :: _).
by elim: (iota 0 w) => //= j t ->.
Qed.


(** The orthogonality of the powers of a root of unity. *)

Lemma prim_root_neq0 n (z : C) : n.-primitive_root z -> z != 0.
Proof.
move=> zP; have := oner_neq0 C; rewrite -(prim_expr_order zP) expf_eq0.
by rewrite (prim_order_gt0 zP).
Qed.

Lemma root_kernel n (z : C) m j :
  n.-primitive_root z ->
  \sum_(u < n) z ^+ (u * m) * z ^- (u * j)
  = if m == j %[mod n] then n%:R else 0.
Proof.
move=> zP; have z0 := prim_root_neq0 zP.
pose q := z ^+ m / z ^+ j.
have -> : \sum_(u < n) z ^+ (u * m) * z ^- (u * j) = \sum_(u < n) q ^+ u.
  apply: eq_bigr => u _.
  by rewrite !(mulnC u) !exprM -exprVn -exprMn.
case: ifPn => [|ne].
  rewrite -(eq_prim_root_expr zP) => /eqP e.
  have -> : q = 1 by rewrite /q e divff // expf_neq0.
  under eq_bigr do rewrite expr1n.
  by rewrite sumr_const card_ord.
have q1 : q - 1 != 0.
  rewrite subr_eq0 /q; apply: contra ne => /eqP e.
  rewrite -(eq_prim_root_expr zP); apply/eqP.
  by rewrite -[LHS](divfK (expf_neq0 j z0)) e mul1r.
have qn : q ^+ n = 1.
  by rewrite /q exprMn exprVn -!exprM !(mulnC _ n) !exprM
             (prim_expr_order zP) !expr1n invr1 mulr1.
apply/eqP; have := subrX1 q n; rewrite qn subrr => /esym/eqP.
by rewrite mulf_eq0 (negPf q1).
Qed.

(** The index that a shift by [i0] sends to [j], modulo [n]. *)
Lemma shift_index n i0 j j' :
  (i0 < n)%N -> (j' < n)%N ->
  (i0 + j' == j %[mod n]) = (j' == (j + (n - i0)) %% n)%N.
Proof.
move=> lt0 lt'.
have -> : (j %% n = (i0 + (j + (n - i0))) %% n)%N.
  by rewrite addnCA subnKC ?(ltnW lt0) // modnDr.
by rewrite eqn_modDl (modn_small lt').
Qed.

Lemma sum_select n (g : nat -> C) i0 j :
  (i0 < n)%N ->
  \sum_(j' < n) g j' * (if i0 + j' == j %[mod n] then n%:R else 0)
  = n%:R * g ((j + (n - i0)) %% n)%N.
Proof.
move=> lt0; have n0 : (0 < n)%N by case: n lt0.
pose k := Ordinal (ltn_pmod (j + (n - i0)) n0).
rewrite (bigD1 k) //= (shift_index _ lt0 (ltn_ord k)) eqxx.
rewrite big1 ?addr0 1?mulrC // => i; rewrite -val_eqE /= => /negPf ne.
by rewrite (shift_index _ lt0 (ltn_ord i)) ne mulr0.
Qed.

(** The transform of a unit peak, and the convolution with it. *)

Lemma fft2_delta h w i0 j0 :
  (i0 < h)%N -> (j0 < w)%N ->
  fft2 omega (delta C h w i0 j0)
  = mkseq (fun u => mkseq (fun v =>
      omega h ^+ (u * i0) * omega w ^+ (v * j0)) w) h.
Proof.
move=> lti ltj; have h0 : (0 < h)%N by case: h lti.
rewrite /fft2 /delta height_mkseq width_mkseq //.
apply: eq_mkseq2 => u v _ _.
rewrite (bigD1 (Ordinal lti)) //= (bigD1 (Ordinal ltj)) //=.
rewrite cat2_mkseq // !eqxx mul1r.
rewrite big1 => [k|].
  rewrite -val_eqE /= => /negPf ne.
  by rewrite cat2_mkseq // eqxx ne !mul0r.
rewrite big1 ?addr0 // => i; rewrite -val_eqE /= => /negPf ne.
by apply: big1 => k _; rewrite cat2_mkseq // ne !mul0r.
Qed.


Lemma np_real_mkseq (f : nat -> nat -> C) h w :
  np_real (mkseq (fun i => mkseq (f i) w) h)
  = mkseq (fun i => mkseq (fun j => 'Re (f i j)) w) h.
Proof.
rewrite /np_real /mkseq -map_comp; apply: eq_map => i /=.
by rewrite -map_comp.
Qed.

Lemma fft2_mkseq h w a :
  (0 < h)%N -> has_shape h w a ->
  fft2 omega a
  = mkseq (fun u => mkseq (fun v =>
      \sum_(j < h) \sum_(k < w)
        cat2 a j k * omega h ^+ (u * j) * omega w ^+ (v * k)) w) h.
Proof.
move=> h0 sh; have [sa sr] := has_shapeP sh.
have wE : width a = w by rewrite /width -nth0 sr.
by rewrite /fft2 /height sa wE.
Qed.

(** One entry of the inverse transform of the product of the transform
    of a peak at [(i0, j0)] and the transform of [f]. *)
Lemma ifft2_entry h w (f : nat -> nat -> C) i0 j0 j k :
  h.-primitive_root (omega h) -> w.-primitive_root (omega w) ->
  (i0 < h)%N -> (j0 < w)%N ->
  (h * w)%:R^-1 *
  (\sum_(u < h) \sum_(v < w)
     omega h ^+ (u * i0) * omega w ^+ (v * j0)
     * (\sum_(j' < h) \sum_(k' < w)
          f j' k' * omega h ^+ (u * j') * omega w ^+ (v * k'))
     * omega h ^- (u * j) * omega w ^- (v * k))
  = f ((j + (h - i0)) %% h)%N ((k + (w - j0)) %% w)%N.
Proof.
move=> hP wP lti ltj.
have h0 : (0 < h)%N by case: h lti {hP}.
have w0 : (0 < w)%N by case: w ltj {wP}.
transitivity
  ((h * w)%:R^-1 *
   \sum_(j' < h) \sum_(k' < w)
      f j' k'
      * ((\sum_(u < h) omega h ^+ (u * (i0 + j')) * omega h ^- (u * j))
         * (\sum_(v < w) omega w ^+ (v * (j0 + k')) * omega w ^- (v * k)))).
  congr (_ * _); rewrite pair_big /=.
  under eq_bigr => p _.
    rewrite pair_big /= mulr_sumr 2!mulr_suml.
    over.
  rewrite exchange_big /= [RHS]pair_big /=.
  apply: eq_bigr => q _.
  rewrite big_distrlr /= pair_big /= mulr_sumr.
  apply: eq_bigr => p _.
  rewrite !mulnDr !exprD.
  set A := omega h ^+ _; set B := omega w ^+ _.
  set A' := omega h ^+ _; set B' := omega w ^+ _.
  set A'' := omega h ^- _; set B'' := omega w ^- _.
  move: A B A' B' A'' B'' (f _ _) => A B A' B' A'' B'' F.
  by ring.
have hw0 : (h * w)%:R != 0 :> C by rewrite pnatr_eq0 -lt0n muln_gt0 h0 w0.
under eq_bigr => j' _.
  under eq_bigr => k' _ do rewrite !root_kernel // mulrCA.
  rewrite -mulr_sumr (sum_select (fun k' => f j' k') k ltj) mulrC.
  over.
rewrite /= (sum_select (fun j' => w%:R * f j' _) j lti).
by rewrite [h%:R * _]mulrA -natrM mulrA mulVf // mul1r.
Qed.


Lemma real_cat2 a i j : is_real_array a -> cat2 a i j \is Num.real.
Proof.
move=> /allP ra; rewrite /cat2.
have [lti|gei] := ltnP i (size a); last by rewrite (nth_default _ gei) nth_nil.
have /allP rr := ra _ (mem_nth [::] lti).
have [ltj|gej] := ltnP j (size (nth [::] a i)); first exact/rr/mem_nth.
by rewrite (nth_default _ gej).
Qed.

Lemma fftshift_mkseq (f : nat -> nat -> C) h w :
  (0 < h)%N -> (0 < w)%N ->
  fftshift (mkseq (fun i => mkseq (f i) w) h)
  = mkseq (fun i => mkseq (fun j =>
      f ((i + (h - h %/ 2)) %% h)%N ((j + (w - w %/ 2)) %% w)%N) w) h.
Proof.
move=> h0 w0; rewrite /fftshift height_mkseq width_mkseq //.
by apply: eq_mkseq2 => i j _ _; rewrite cat2_mkseq // ltn_pmod.
Qed.

(** The convolution with the transform of a unit peak at [(i0, j0)]
    rolls the image: by [i0] and [j0], and then by half of each side
    ([fftshift]). *)
Lemma circular_delta_shift h w i0 j0 a :
  h.-primitive_root (omega h) -> w.-primitive_root (omega w) ->
  has_shape h w a -> is_real_array a -> (i0 < h)%N -> (j0 < w)%N ->
  fft_convolve_circular omega a (fft2 omega (delta C h w i0 j0))
  = mkseq (fun i => mkseq (fun j =>
      cat2 a ((i + (h - h %/ 2) + (h - i0)) %% h)%N
             ((j + (w - w %/ 2) + (w - j0)) %% w)%N) w) h.
Proof.
move=> hP wP sh ra lti ltj.
have h0 : (0 < h)%N by case: h lti {hP sh}.
have w0 : (0 < w)%N by case: w ltj {wP sh}.
rewrite /fft_convolve_circular fft2_delta // (fft2_mkseq h0 sh) cmul_mkseq.
have -> : ifft2 omega
            (mkseq (fun u => mkseq (fun v =>
               omega h ^+ (u * i0) * omega w ^+ (v * j0)
               * (\sum_(j' < h) \sum_(k' < w)
                    cat2 a j' k' * omega h ^+ (u * j') * omega w ^+ (v * k')))
               w) h)
          = mkseq (fun j => mkseq (fun k =>
              cat2 a ((j + (h - i0)) %% h)%N ((k + (w - j0)) %% w)%N) w) h.
  rewrite /ifft2 height_mkseq width_mkseq //; apply: eq_mkseq2 => j k _ _.
  rewrite -[RHS](ifft2_entry (cat2 a) j k hP wP lti ltj); congr (_ * _).
  apply: eq_bigr => u _; apply: eq_bigr => v _.
  by rewrite cat2_mkseq.
rewrite fftshift_mkseq // np_real_mkseq; apply: eq_mkseq2 => i j _ _.
by rewrite !modnDml; apply/Creal_ReP/real_cat2.
Qed.

Lemma roll_back n i t :
  (i < n)%N -> ((i + t + (n - t %% n)) %% n = i)%N.
Proof.
move=> lt; have n0 : (0 < n)%N by case: n lt.
rewrite -addnA -modnDmr -(modnDml t) subnKC ?(ltnW (ltn_pmod _ _)) //.
by rewrite modnn addn0 modn_small.
Qed.


Lemma half_side n : ~~ odd n -> (0 < n)%N -> ((n - n %/ 2) %% n = n %/ 2)%N.
Proof.
move=> ev n0; rewrite divn2.
have nE : n = (n./2 + n./2)%N by rewrite addnn -[LHS]odd_double_half (negPf ev).
rewrite [X in (X - _)%N]nE addnK modn_small //.
by rewrite [X in (_ < X)%N]nE -addn1 leq_add2l; case: (n./2) nE n0 => // ->.
Qed.

(** C7 (as amended): on the CPU and in circular mode [fft_convolve] pads
    nothing and returns the real part of the [fftshift] of the inverse
    transform of the product.  For every real image [a] of shape
    [h] by [w], convolving with the transform of the unit peak at
    [(h - h/2, w - w/2)] (modulo the sides) returns [a]; when [h] and
    [w] are even, that peak is at the centre pixel [(h/2, w/2)].  A
    unit peak at the index [(0, 0)] returns [fftshift a]. *)
Theorem circular_delta_identity
    (gpu_r2c gpu_c2r : carray -> bool -> carray)
    (fftconvolve_same : carray -> carray -> carray) h w a :
  h.-primitive_root (omega h) -> w.-primitive_root (omega w) ->
  has_shape h w a -> is_real_array a ->
  [/\ fft_convolve omega gpu_r2c gpu_c2r fftconvolve_same a
        (fft2 omega
           (delta C h w ((h - h %/ 2) %% h) ((w - w %/ 2) %% w)))
        false Circular
      = a,
      ~~ odd h -> ~~ odd w ->
      fft_convolve omega gpu_r2c gpu_c2r fftconvolve_same a
        (fft2 omega (delta C h w (h %/ 2) (w %/ 2))) false Circular
      = a
    & fft_convolve omega gpu_r2c gpu_c2r fftconvolve_same a
        (fft2 omega (delta C h w 0 0)) false Circular
      = fftshift a].
Proof.
move=> hP wP sh ra.
have h0 := prim_order_gt0 hP; have w0 := prim_order_gt0 wP.
have idE : fft_convolve_circular omega a
             (fft2 omega
                (delta C h w ((h - h %/ 2) %% h) ((w - w %/ 2) %% w)))
           = a.
  rewrite circular_delta_shift ?ltn_pmod // [RHS](mkseq_cat2 sh).
  by apply: eq_mkseq2 => i j lti ltj; rewrite !roll_back.
split=> /=; first exact: idE.
  by move=> eh ew; rewrite -{1}(half_side eh h0) -{1}(half_side ew w0).
rewrite circular_delta_shift // [X in fftshift X](mkseq_cat2 sh).
rewrite fftshift_mkseq //; apply: eq_mkseq2 => i j _ _.
by rewrite !subn0 !modnDr.
Qed.

End FftFacts.

(** *** [fft_convolve] over the algebraic numbers *)

Lemma omegaCP n : (0 < n)%N -> n.-primitive_root (omegaC n).
Proof.
by move=> n0; rewrite /omegaC; case: C_prim_root_exists => z /=; rewrite prednK.
Qed.

(** *** Reading off what an evaluation gave *)

Lemma odflt_pairE (A B : Type) (d : A * B) (o : option (A * B)) :
  isSome o -> o = Some ((odflt d o).1, (odflt d o).2).
Proof. by case: o => [[]|]. Qed.

Lemma returned_pairE (A B : Type) (d : A * B) (r : result (A * B)) :
  is_return r -> r = Return ((returned d r).1, (returned d r).2).
Proof. by case: r => [[]| |]. Qed.

Lemma continueE (T : Type) (o : control * T) :
  o.1 = Continue -> o = (Continue, o.2).
Proof. by case: o => c st /= ->. Qed.

Ltac evaluate := vm_compute; reflexivity.

(** *** The claims on the bench *)

(** C1 on the bench: the first pass of the major loop with loop gain 1
    counts as an iteration, and leaves the residual of its model. *)
Lemma residual_identity_witness :
  [/\ isSome (bench_body (bench_params 1)),
      major_loop_niter (bench_after (bench_params 1))
      = (major_loop_niter bench_state).+1
    & residual (bench_after (bench_params 1))
      = img_sub bench_dirty
          (conv_fft_convolve (t := bench)
             (model (bench_after (bench_params 1))) bench_psf (conv_device (bench_params 1))
             (conv_mode (bench_params 1)))].
Proof.
have S : isSome (bench_body (bench_params 1)) by evaluate.
have E := odflt_pairE (Break, bench_state) S.
have N : major_loop_niter (bench_after (bench_params 1))
         = (major_loop_niter bench_state).+1 by evaluate.
split; [exact: S | exact: N | exact: (residual_identity E N)].
Defined.


(** C9 on the bench: loop gains 1/2 and 1, neither pass reverted. *)
Lemma loop_gain_law_witness :
  [/\ (std_ratio (bench_after (with_loop_gain (1 / qi 2) (bench_params 1)))
       < 0)
      = (std_ratio (bench_after (with_loop_gain 1 (bench_params 1))) < 0),
      x (minor (bench_after (with_loop_gain (1 / qi 2) (bench_params 1))))
      = x (minor (bench_after (with_loop_gain 1 (bench_params 1))))
    & img_sub (model (bench_after (with_loop_gain (1 / qi 2) (bench_params 1))))
        (model bench_state)
      = img_scale (1 / qi 2)
          (img_sub (model (bench_after (with_loop_gain 1 (bench_params 1))))
             (model bench_state))].
Proof.
have Sg : isSome (bench_body (with_loop_gain (1 / qi 2) (bench_params 1))).
  by evaluate.
have S1 : isSome (bench_body (with_loop_gain 1 (bench_params 1))).
  by evaluate.
have Eg := odflt_pairE (Break, bench_state) Sg.
have E1 := odflt_pairE (Break, bench_state) S1.
have A : (std_ratio (bench_after (with_loop_gain (1 / qi 2) (bench_params 1)))
          < 0)
         = (std_ratio (bench_after (with_loop_gain 1 (bench_params 1))) < 0).
  by evaluate.
have [xE mE] := loop_gain_law Eg E1 A.
by split; [exact: A | exact: xE | exact: mE].
Defined.

(** The claim C9 as it stands fails on the bench: with loop gain 10000
    the pass is reverted and leaves the model alone, with loop gain 1 it
    is kept. *)
Lemma loop_gain_law_counterexample :
  [/\ isSome (bench_body (with_loop_gain big_gain (bench_params 1))),
      isSome (bench_body (with_loop_gain 1 (bench_params 1))),
      std_ratio (bench_after (with_loop_gain big_gain (bench_params 1))) < 0,
      all_zero
        (img_sub
           (model (bench_after (with_loop_gain big_gain (bench_params 1))))
           (model bench_state))
    & img_sub
        (model (bench_after (with_loop_gain big_gain (bench_params 1))))
        (model bench_state)
      != img_scale big_gain
           (img_sub
              (model (bench_after (with_loop_gain 1 (bench_params 1))))
              (model bench_state))].
Proof. by split; evaluate. Qed.

(** C2 on the bench: the third pass of the minor loop finds the
    statistic at 20 dB as the second did, and leaves [x] alone. *)
Lemma snr_decrease_witness :
  [/\ (minor_step minor_start).1 = Continue,
      (minor_step minor_second).1 = Continue
    & snr_of (TB := bench) minor_params minor_psf 1 0 minor_sources
        minor_mask minor_third
      <= snr_current minor_third]
  /\ [/\ (minor_step minor_third).1 = Break,
         x (minor_step minor_third).2 = x minor_third
       & min_scale (minor_step minor_third).2 = 0%N].
Proof.
have C1 : (minor_step minor_start).1 = Continue by evaluate.
have C2 : (minor_step minor_second).1 = Continue by evaluate.
have E1 := continueE C1.
have E2 := continueE C2.
have L1 : (minor_loop_niter minor_start < minor_loop_miter minor_params)%N.
  by evaluate.
have L2 : (minor_loop_niter minor_second < minor_loop_miter minor_params)%N.
  by evaluate.
have L3 : (minor_loop_niter minor_third < minor_loop_miter minor_params)%N.
  by evaluate.
have K : (2 < (minor_loop_niter minor_third).+1)%N.
  by evaluate.
have D : snr_of (TB := bench) minor_params minor_psf 1 0 minor_sources
           minor_mask minor_third <= snr_current minor_third.
  by evaluate.
have G : 21%:R / 2%:R
         < snr_of (TB := bench) minor_params minor_psf 1 0 minor_sources
             minor_mask minor_third.
  by evaluate.
have rch := reachS (reachS (reach0 _ _ _ _ _ _ _) L1 E1) L2 E2.
have [bE xE mE _] := snr_decrease_accepts_previous_x rch L3 K D G.
by split; split; [exact: C1 | exact: C2 | exact: D | exact: bE
                 | exact: xE | exact: mE].
Defined.

(** The claim C5 as it stands fails on the bench: on two scales whose
    errors cancel when the scales are added up, the statistic of the
    code is 10 dB and that of the recomposed images is the 400 dB of a
    perfect fit. *)
Lemma snr_statistic_counterexample :
  [/\ snr_current
        (minor_iteration (TB := bench) minor_params peak_psf 2 0
           two_sources two_mask two_start).2 == qi 10,
      snr_spec (TB := bench) minor_params peak_psf 2 0 two_sources two_mask
        two_start == qi 400
    & snr_current
        (minor_iteration (TB := bench) minor_params peak_psf 2 0
           two_sources two_mask two_start).2
      != snr_spec (TB := bench) minor_params peak_psf 2 0 two_sources
           two_mask two_start].
Proof. by split; evaluate. Qed.

(** C6 on the bench: a call with loop gain 1. *)
Lemma model_stays_nonneg_witness :
  is_return (moresane bench 3 (bench_params 1) bench_session.1 bench_session.2)
  /\ nonneg
       (deref
          (returned bench_session
             (moresane bench 3 (bench_params 1) bench_session.1
                bench_session.2)).2
          (self_model
             (returned bench_session
                (moresane bench 3 (bench_params 1) bench_session.1
                   bench_session.2)).1)).
Proof.
have S : is_return
           (moresane bench 3 (bench_params 1) bench_session.1
              bench_session.2) by evaluate.
have E := returned_pairE bench_session S.
have ep : enforce_positivity (bench_params 1) by evaluate.
have g0 : 0 <= loop_gain (bench_params 1) by evaluate.
have nm : nonneg (deref bench_session.2 (self_model bench_session.1)).
  by evaluate.
split; [exact: S | exact: (model_stays_nonneg ep g0 E nm).1].
Defined.

(** The claim C6 as it stands fails on the bench: with
    [enforce_positivity] and loop gain [-1] the call returns a model
    with negative entries. *)
Lemma model_stays_nonneg_counterexample :
  [/\ enforce_positivity (bench_params (-1)),
      nonneg (deref bench_session.2 (self_model bench_session.1)),
      is_return
        (moresane bench 3 (bench_params (-1)) bench_session.1
           bench_session.2)
    & np_min
        (deref
           (returned bench_session
              (moresane bench 3 (bench_params (-1)) bench_session.1
                 bench_session.2)).2
           (self_model bench_session.1))
      < 0].
Proof. by split; evaluate. Qed.

(** C8 on the bench: a 3 by 3 image. *)
Lemma odd_image_raises_witness :
  moresane bench 3 (bench_params 1) odd_session.1 odd_session.2
  = Raise ValueError
  /\ moresane_by_scale bench 3 (bench_params 1) 1 1 odd_session.1
       odd_session.2
     = Raise ValueError.
Proof.
have o : odd (self_dirty_data_shape odd_session.1).1 by evaluate.
have nc : ~~ self_complete odd_session.1 by evaluate.
have [E F] := odd_image_raises bench 3 (bench_params 1) 1 1 odd_session.2 o.
by split; [exact: E | exact: (F nc)].
Defined.

(** The claim C8 as it stands fails on the bench: 6 is even and no
    power of two, and the call on a 6 by 6 image returns, after an
    iteration of the major loop. *)
Lemma invalid_input_counterexample :
  [/\ self_dirty_data_shape six_session.1 = (6, 6)%N,
      (2 ^ trunc_log 2 6 != 6)%N,
      is_return
        (moresane bench 3 (bench_params 1) six_session.1 six_session.2)
    & omap (@major_loop_niter Qc)
        (run_major_loop bench 3 (bench_params 1) six_session.1
           six_session.2)
      = Some 1%N].
Proof. by split; evaluate. Qed.

(** C10 on the bench: a run over the scale 1. *)
Lemma by_scale_restores_dirty_witness :
  is_return
    (moresane_by_scale bench 3 (bench_params 1) 1 1 bench_session.1
       bench_session.2)
  /\ [/\ self_dirty_data
           (returned bench_session
              (moresane_by_scale bench 3 (bench_params 1) 1 1
                 bench_session.1 bench_session.2)).1
         = self_dirty_data bench_session.1,
         deref
           (returned bench_session
              (moresane_by_scale bench 3 (bench_params 1) 1 1
                 bench_session.1 bench_session.2)).2
           (self_dirty_data bench_session.1)
         = bench_dirty
       & self_complete
           (returned bench_session
              (moresane_by_scale bench 3 (bench_params 1) 1 1
                 bench_session.1 bench_session.2)).1
         = false].
Proof.
have S : is_return
           (moresane_by_scale bench 3 (bench_params 1) 1 1 bench_session.1
              bench_session.2) by evaluate.
have E := returned_pairE bench_session S.
have lt : (self_dirty_data bench_session.1 < size bench_session.2)%N.
  by evaluate.
have ne : self_dirty_data bench_session.1 != self_model bench_session.1.
  by evaluate.
have [dE hE cE _] := by_scale_restores_dirty E lt ne.
by split; [exact: S | split; [exact: dE | rewrite -dE; exact: hE | exact: cE]].
Defined.

(** C3 on the bench: the null session with the flux threshold at 0 and
    at -1. *)
Lemma null_input_witness :
  [/\ major_guard (null_params 0)
        (first_state (null_params 0) null_session.1 null_session.2)
      = false,
      max_coeff (first_state (null_params 0) null_session.1 null_session.2)
      = 1
    & moresane bench 3 (null_params 0) null_session.1 null_session.2
      = Return null_session]
  /\ exists st,
       [/\ first_pass bench 2 (null_params (-1)) null_session.1
             null_session.2
           = Some (Break, st),
           max_coeff st = 0
         & major_loop_niter st = 0%N].
Proof.
have z : all_zero (deref null_session.2 (self_dirty_data null_session.1)).
  by evaluate.
have e : ~~ odd (self_dirty_data_shape null_session.1).1 by evaluate.
have nz : (self_dirty_data_shape null_session.1).1 != 0%N by evaluate.
split.
  have f0 : 0 <= flux_threshold (null_params 0) by evaluate.
  have [gE _ mE _ rE] := (null_input bench 3 (null_params 0) z e nz).1 f0.
  by split; [exact: gE | exact: mE | exact: rE].
have f1 : flux_threshold (null_params (-1)) < 0 by evaluate.
have a1 : accuracy (null_params (-1)) < 1 by evaluate.
have mx : all (fun u => u == 0)
            (first_maxima bench (null_params (-1)) null_session.1
               null_session.2).
  by evaluate.
have [st [_ pE [mE nE] _ _]] :=
  (null_input bench 1 (null_params (-1)) z e nz).2 f1 isT a1 isT mx.
by exists st; split.
Defined.

(** The claim C3 as it stands fails on the bench: with the flux
    threshold at its default 0, the call on the null image makes no
    pass of the major loop, and [max_coeff] is 1 at the end. *)
Lemma null_input_counterexample :
  [/\ all_zero (deref null_session.2 (self_dirty_data null_session.1)),
      flux_threshold (null_params 0) == 0,
      omap (@major_loop_niter Qc)
        (run_major_loop bench 3 (null_params 0) null_session.1
           null_session.2)
      = Some 0%N
    & omap (@max_coeff Qc)
        (run_major_loop bench 3 (null_params 0) null_session.1
           null_session.2)
      == Some 1].
Proof. by split; evaluate. Qed.

(** C7 on a 2 by 2 array of algebraic numbers: the peak at the centre
    pixel [(1, 1)] and the peak at the index [(0, 0)]. *)
Lemma circular_delta_identity_witness :
  fft_convolve omegaC no_gpu no_gpu no_scipy square_array
    (fft2 omegaC (delta algC 2 2 (2 %/ 2) (2 %/ 2))) false Circular
  = square_array
  /\ fft_convolve omegaC no_gpu no_gpu no_scipy square_array
       (fft2 omegaC (delta algC 2 2 0 0)) false Circular
     = fftshift square_array.
Proof.
have hP : 2.-primitive_root (omegaC 2) by apply: omegaCP.
have sh : has_shape 2 2 square_array by [].
have ra : is_real_array square_array.
  by rewrite /is_real_array /= real1 !realn.
have [_ E2 E3] := circular_delta_identity no_gpu no_gpu no_scipy hP hP sh ra.
by split; [exact: (E2 isT isT) | exact: E3].
Defined.

(** The claim C7 as it stands fails: a unit peak at the index [(0, 0)]
    does not return the 2 by 2 array, and on a row of three entries the
    unit peak at the centre pixel [(0, 1)] does not return the row. *)
Lemma circular_delta_counterexample :
  fft_convolve omegaC no_gpu no_gpu no_scipy square_array
    (fft2 omegaC (delta algC 2 2 0 0)) false Circular
  != square_array
  /\ fft_convolve omegaC no_gpu no_gpu no_scipy row_array
       (fft2 omegaC (delta algC 1 3 (1 %/ 2) (3 %/ 2))) false Circular
     != row_array.
Proof.
have P1 : 1.-primitive_root (omegaC 1) by apply: omegaCP.
have P2 : 2.-primitive_root (omegaC 2) by apply: omegaCP.
have P3 : 3.-primitive_root (omegaC 3) by apply: omegaCP.
have r2 : is_real_array square_array.
  by rewrite /is_real_array /= real1 !realn.
have r3 : is_real_array row_array.
  by rewrite /is_real_array /= real1 !realn.
rewrite /fft_convolve.
rewrite (circular_delta_shift P2 P2 (isT : has_shape 2 2 square_array) r2) //.
rewrite (circular_delta_shift P1 P3 (isT : has_shape 1 3 row_array) r3) //.
rewrite /mkseq /= /cat2 /=.
by split; apply/eqP => -[/eqP]; rewrite (eqr_nat _ _ 1).
Qed.

(** ** Part III. Further properties of the code *)

(** Arithmetic on the natural numbers, through [lia]. *)
Ltac nat_arith :=
  repeat match goal with
         | |- is_true (leq _ _) => apply/ssrnat.leP
         end;
  repeat match goal with
         | H : is_true (leq _ _) |- _ => move/ssrnat.leP: H
         | H : @eq nat _ _ |- _ => move: H
         end;
  rewrite -?plusE -?minusE -?multE; lia.

(** *** The prologue of [moresane] *)

Section PrologueFacts.
Variable R : realFieldType.

(** Lines 124-126: whatever [scale_count] is passed, the scale count of
    the call satisfies [scale_count <= log2(H) - 1], that is
    [2 ^ (scale_count + 1) <= H]; a value within this bound is kept. *)
Theorem scale_count_within_log2 (P : params R) H :
  (1 < H)%N ->
  (2 ^ (resolve_scale_count P H).+1 <= H)%N
  /\ forall c, scale_count P = Some c -> (2 ^ c.+1 <= H)%N ->
       resolve_scale_count P H = c.
Proof.
move=> H1; have H0 : (0 < H)%N by apply: ltn_trans H1.
have mx : (2 ^ (max_scale_count H).+1 <= H)%N.
  rewrite /max_scale_count subn1 prednK ?trunc_logP //.
  by rewrite trunc_log_gt0.
rewrite /resolve_scale_count; case: (scale_count P) => [c|]; last by split.
case: ltnP => [lt|le]; split=> // c' [<-] // le'.
by move: lt; rewrite ltnNge le'.
Qed.

(** Lines 264-275: with [edge_suppression], the border that is zeroed at
    scale [i] is [2 ^ (i + 2) - 2] pixels wide, the sum of [2 * 2 ^ k]
    up to [i], or [edge_offset] pixels when that is more. *)
Lemma suppression_loop_from (P : params R) s k i :
  suppression_loop P s k i (2 ^ i.+1 - 2)
  = [seq ones_inside R s (maxn (edge_offset P) (2 ^ j.+2 - 2))
    | j <- iota i k].
Proof.
elim: k i => //= k IH i.
have -> : (2 ^ i.+1 - 2 + 2 * 2 ^ i = 2 ^ i.+2 - 2)%N.
  have le2 : (2 <= 2 ^ i.+1)%N by rewrite expnS leq_pmulr // expn_gt0.
  by rewrite -expnS addnC addnBA // addnn -mul2n -expnS.
rewrite IH; congr (ones_inside _ _ _ :: _).
by rewrite /maxn; case: ltngtP.
Qed.

Theorem edge_corruption_closed_form (P : params R) s n :
  edge_suppression P ->
  suppression_array_of P s n
  = mkseq (fun i => ones_inside R s (maxn (edge_offset P) (2 ^ i.+2 - 2))) n.
Proof.
by move=> es; rewrite /suppression_array_of es (suppression_loop_from P s n 0).
Qed.

End PrologueFacts.

(** *** The minor loop *)

Section MinorExtras.
Variables (R : realFieldType) (TB : toolbox R) (P : params R).
Variables (psf_subregion_fft : spectrum TB) (max_scale scale_adjust : nat).
Variables (extracted_sources extracted_sources_mask : cube R).

Notation iteration :=
  (minor_iteration P psf_subregion_fft max_scale scale_adjust
     extracted_sources extracted_sources_mask).
Notation loop :=
  (minor_loop P psf_subregion_fft max_scale scale_adjust
     extracted_sources extracted_sources_mask).
Notation snr :=
  (snr_of P psf_subregion_fft max_scale scale_adjust
     extracted_sources extracted_sources_mask).

Implicit Types st : minor_state R.

(** What the loop does to its counter and to [min_scale], by induction
    on what the counter lacks to [minor_loop_miter]. *)
Lemma loop_ind (Q : minor_state R -> minor_state R -> Prop) :
  (forall st, Q st st) ->
  (forall st, (minor_loop_niter st < minor_loop_miter P)%N ->
     (iteration st).1 = Break -> Q st (iteration st).2) ->
  (forall st st', (minor_loop_niter st < minor_loop_miter P)%N ->
     (iteration st).1 = Continue -> Q (iteration st).2 st' -> Q st st') ->
  forall st, Q st (loop st).
Proof.
move=> Q0 Qb Qc st.
have [n] := ubnP (minor_loop_miter P - minor_loop_niter st)%N.
elim: n st => // n IH st; rewrite ltnS => le.
have [ge|lt] := leqP (minor_loop_miter P) (minor_loop_niter st).
  by rewrite loop_done.
rewrite loop_step //.
case E: (iteration st) => [[] st1] /=.
  by have := Qb st lt; rewrite E; apply.
apply: Qc => //; rewrite E //=; apply: IH.
have -> : minor_loop_niter st1 = (minor_loop_niter st).+1.
  by move: E; case: iterationP => // rn p2 _ _ [<-].
by rewrite subnS -ltnS prednK ?subn_gt0.
Qed.

(** Lines 393 and 441: the minor loop makes at most [minor_loop_miter]
    passes; its counter never goes down and never goes past
    [minor_loop_miter] when it starts below it. *)
Theorem minor_loop_bounded st :
  (minor_loop_niter st
   <= minor_loop_niter
        (minor_loop P psf_subregion_fft max_scale scale_adjust
           extracted_sources extracted_sources_mask st)
   <= maxn (minor_loop_niter st) (minor_loop_miter P))%N.
Proof.
apply: (loop_ind (Q := fun st st' =>
  (minor_loop_niter st <= minor_loop_niter st'
   <= maxn (minor_loop_niter st) (minor_loop_miter P))%N)) => {st} [st|st lt|st st' lt].
- by rewrite leqnn leq_maxl.
- case: iterationP => [p2 e _|p2 _|p2 _ _ _ _|p2 _ _ _ _|//] _ /=;
    try by rewrite leqnSn leq_max lt orbT.
  by move: lt; rewrite e max0n.
case: iterationP => // rn p2 _ _ _ /= /andP[le1 le2].
rewrite (ltnW le1) /=; apply: leq_trans le2 _.
by rewrite geq_max leq_max lt orbT leq_maxr.
Qed.

(** Lines 448-472: the minor loop leaves [min_scale] as it found it,
    or resets it to 0, or increments it by one. *)
Theorem min_scale_after_minor_loop st :
  [\/ min_scale
        (minor_loop P psf_subregion_fft max_scale scale_adjust
           extracted_sources extracted_sources_mask st)
      = min_scale st,
      min_scale
        (minor_loop P psf_subregion_fft max_scale scale_adjust
           extracted_sources extracted_sources_mask st)
      = 0%N
    | min_scale
        (minor_loop P psf_subregion_fft max_scale scale_adjust
           extracted_sources extracted_sources_mask st)
      = (min_scale st).+1].
Proof.
apply: (loop_ind (Q := fun st st' =>
  [\/ min_scale st' = min_scale st, min_scale st' = 0%N
    | min_scale st' = (min_scale st).+1])) => {st} [st|st lt|st st' lt].
- exact: Or31.
- by case: iterationP => [p2 _ _|p2 _|p2 _ _ _ _|p2 _ _ _ _|//] _ /=;
     [apply: Or33|apply: Or32|apply: Or32|apply: Or33].
by case: iterationP.
Qed.

(** Lines 448-472: a pass that leaves the loop hands on [xn] only when
    the statistic is above 40 dB and the pass is not the first; in every
    other case the solution is the [x] from before the update. *)
Theorem exit_solution st :
  (minor_iteration P psf_subregion_fft max_scale scale_adjust
     extracted_sources extracted_sources_mask st).1 = Break ->
  x (minor_iteration P psf_subregion_fft max_scale scale_adjust
       extracted_sources extracted_sources_mask st).2
  = if (40%:R < snr_of P psf_subregion_fft max_scale scale_adjust
                  extracted_sources extracted_sources_mask st)
       && (minor_loop_niter st != 0%N)
    then xn_of P psf_subregion_fft max_scale scale_adjust
           extracted_sources_mask st
    else x st.
Proof.
rewrite /minor_iteration /snr_of /xn_of.
case: (cg_update _ _ _ _ _ st) => [[xn1 p1] Ap] /=.
rewrite eqSS; case: (minor_loop_niter st == 0%N); case: (40%:R < _) => //=;
  by do ?case: ifP.
Qed.

End MinorExtras.

(** *** The major loop *)

Section MajorExtras.
Variables (R : realFieldType) (TB : toolbox R) (P : params R).
Variable dirty_data : image R.
Variable the_scale_count : nat.
Variable subregion_slice : slice * slice.
Variables (psf_subregion_fft psf_data_fft : spectrum TB).
Variable psf_energies : seq R.
Variable suppression_array : cube R.

Notation body :=
  (major_body P dirty_data the_scale_count subregion_slice
     psf_subregion_fft psf_data_fft psf_energies suppression_array).
Notation mloop :=
  (major_loop P dirty_data the_scale_count subregion_slice
     psf_subregion_fft psf_data_fft psf_energies suppression_array).

Implicit Types st : major_state R.

(** A pass counts one iteration or none; the session is what it was,
    or the pass has counted none, has set [complete] and is the last. *)
Lemma body_counts fuel st c st' :
  body fuel st = Some (c, st') ->
  (major_loop_niter st' = major_loop_niter st
   \/ major_loop_niter st' = (major_loop_niter st).+1)
  /\ (self st' = self st
      \/ [/\ c = Break, major_loop_niter st' = 0%N
           & self st' = set_complete true (self st)]).
Proof.
rewrite /major_body.
case E: (inner_while _ _ _ _ _ _ fuel st) => [st1|] //= [].
have [n1 _ _ [_ _ _ _ s1]] := same_outer_inner E.
case: afterP => [_|_|_ n0|_ _] [<- <-] /=; rewrite ?n1 ?s1;
  try by split; [left|left].
  by split; [right|left].
by split; [left|right; split=> //; rewrite -n1].
Qed.

(** Lines 281 and 520: the major loop counts at most [major_loop_miter]
    iterations. *)
Theorem major_loop_bounded fuel st st' :
  major_loop P dirty_data the_scale_count subregion_slice
    psf_subregion_fft psf_data_fft psf_energies suppression_array fuel st
  = Some st' ->
  (major_loop_niter st <= major_loop_niter st'
   <= maxn (major_loop_niter st) (major_loop_miter P))%N.
Proof.
elim: fuel st => [|fuel IH] st /=; case: ifP => [grd|_] //;
  try by case=> <-; rewrite leqnn leq_maxl.
have lt : (major_loop_niter st < major_loop_miter P)%N.
  by case/andP: grd => /andP[].
case E: (body fuel st) => [[[] st1]|] //.
  case=> <-; have [[->|->] _] := body_counts E.
    by rewrite leqnn leq_maxl.
  by rewrite leqnSn leq_max lt orbT.
move=> /IH /andP[le1 le2]; have [[e|e] _] := body_counts E.
  by rewrite -e le1.
rewrite (leq_trans _ le1) ?e //=; apply: leq_trans le2 _.
by rewrite e geq_max leq_max lt orbT leq_maxr.
Qed.

(** Lines 523-529: the loop sets [complete] only in a pass after which
    no iteration has been counted, and that pass is the last. *)
Lemma loop_complete fuel st st' :
  mloop fuel st = Some st' ->
  self st' = self st
  \/ major_loop_niter st' = 0%N /\ self st' = set_complete true (self st).
Proof.
elim: fuel st => [|fuel IH] st /=; case: ifP => _ //;
  try by case=> <-; left.
case E: (body fuel st) => [[[] st1]|] //.
  by case=> <-; have [_ [->|[_ -> ->]]] := body_counts E; [left|right].
by have [_ [<-|[]]] := body_counts E => // /IH.
Qed.

End MajorExtras.

(** *** [moresane] and the session *)

Section MoresaneExtras.
Variables (R : realFieldType) (TB : toolbox R).

(** Lines 500-536: a call that has counted an iteration publishes, in a
    new array, the residual of the model of this call, the dirty image
    minus the convolution of that model with the PSF, and adds the
    model of the call to the array of the session's model, in place. *)
Theorem published_residual fuel P s h s' h' st :
  moresane TB fuel P s h = Return (s', h') ->
  run_major_loop TB fuel P s h = Some st ->
  (0 < major_loop_niter st)%N ->
  [/\ deref h' (self_residual s')
      = img_sub (deref h (self_dirty_data s))
          (conv_fft_convolve (model st)
             (psf_spectra TB (resolve_devices P) (deref h (self_psf_data s))
                (self_psf_data_shape s) (self_dirty_data_shape s)
                (resolve_subregion (resolve_devices P)
                   (self_dirty_data_shape s).1)).2
             (conv_device (resolve_devices P))
             (conv_mode (resolve_devices P))),
      deref h' (self_model s')
      = img_add (deref h (self_model s)) (model st),
      self_model s' = self_model s
    & (size h <= self_residual s')%N].
Proof.
case: moresaneP => // st0 _ _ rE [E] rE'; move: rE; rewrite rE' => -[e0].
rewrite -{}e0 in E => pos.
have sr := run_same_refs rE'.
have -> : s' = (publish st h).1 by rewrite E.
have -> : h' = (publish st h).2 by rewrite E.
rewrite publish_model pos (same_refs_model sr).
have [_ -> _ _] := publish_refs st h; rewrite (same_refs_model sr).
have inv := residual_inv_loop rE' (fun lt0 => False_ind _ (notF lt0)).
rewrite /publish pos /=; split=> //.
  rewrite /deref nth_rcons ltnn eqxx (inv pos).
  by rewrite /residual_of /convolve_full.
by rewrite size_set_nth leq_max leqnn orbT.
Qed.

(** Lines 523-536: a call that finds the session not complete and
    leaves it complete has done no work: the store is what it was, and
    so is the session but for the flag. *)
Theorem complete_means_no_work fuel P s h s' h' :
  moresane TB fuel P s h = Return (s', h') ->
  ~~ self_complete s -> self_complete s' ->
  h' = h /\ s' = set_complete true s.
Proof.
case: moresaneP => // st _ _ rE [E] nc.
have -> : s' = (publish st h).1 by rewrite E.
have -> : h' = (publish st h).2 by rewrite E.
have [_ _ _ ->] := publish_refs st h.
case: (loop_complete rE) => [->|[n0 sE]] /=; first by rewrite (negPf nc).
by rewrite /publish n0 /= sE.
Qed.

(** A call of [moresane] that returns writes to no array of the store
    but the model's: the dirty image and the PSF are what they were,
    the session refers to the same arrays for them and for the model,
    and no array is dropped. *)
Theorem moresane_writes_model_only fuel P s h s' h' :
  moresane TB fuel P s h = Return (s', h') ->
  (self_dirty_data s < size h)%N -> (self_psf_data s < size h)%N ->
  self_dirty_data s != self_model s -> self_psf_data s != self_model s ->
  [/\ deref h' (self_dirty_data s') = deref h (self_dirty_data s),
      deref h' (self_psf_data s') = deref h (self_psf_data s),
      self_model s' = self_model s
    & (size h <= size h')%N].
Proof.
move=> mE ltd ltp ned nep.
have [dE mdl sz fr] := moresane_frame mE.
have pE : self_psf_data s' = self_psf_data s.
  case: moresaneP mE => // st _ _ /run_same_refs sr [E].
  have -> : s' = (publish st h).1 by rewrite E.
  by have [_ _ -> _] := publish_refs st h; rewrite sr.
by rewrite dE pE !fr.
Qed.

End MoresaneExtras.

(** *** [moresane_by_scale] *)

Section ByScaleExtras.
Variables (R : realFieldType) (TB : toolbox R).

(** Lines 579-614: on a session that is complete [moresane_by_scale]
    calls nothing, leaves the store as it is, and resets [complete]. *)
Theorem by_scale_on_complete_session fuel P start stop s h :
  self_complete s ->
  moresane_by_scale TB fuel P start stop s h
  = Return (set_complete false s, h).
Proof.
by rewrite /moresane_by_scale /= => ->; case: s.
Qed.

(** The passes of the loop of lines 584-609 are numbered by
    [scale_count], which a pass leaves above [stop_scale] at the latest
    after [stop_scale - start_scale + 1] passes. *)
Lemma by_scale_loop_exhausted fuel P stop k c s h :
  (stop < c + k.+1)%N ->
  by_scale_loop TB fuel P stop k.+1 c s h = Exhausted ->
  exists c1 s1 h1, moresane TB fuel (with_scale_count P c1) s1 h1 = Exhausted.
Proof.
elim: k c s h => [|k IH] c s h lt.
  rewrite /=; case: ifP => _ //.
  case E: (moresane _ _ _ _ _) => [[s1 h1]| |] //; last by exists c, s, h.
  by case: ifP => _ //; rewrite -(addn1 c) lt.
rewrite [by_scale_loop _ _ _ _ _ _ _ _]/=; case: ifP => _ //.
case E: (moresane _ _ _ _ _) => [[s1 h1]| |] //; last by exists c, s, h.
case: ifP => _ //; case: ifP => _ //; apply: IH.
by rewrite addSnnS.
Qed.

(** The loop of [moresane_by_scale] ends: the method runs out of fuel
    only when a call of [moresane] does. *)
Theorem by_scale_loop_ends fuel P start stop s h :
  moresane_by_scale TB fuel P start stop s h = Exhausted ->
  exists c1 s1 h1, moresane TB fuel (with_scale_count P c1) s1 h1 = Exhausted.
Proof.
rewrite /moresane_by_scale.
case E: (by_scale_loop _ _ _ _ _ _ _ _) => [[s1 h1]| |] // _.
apply: by_scale_loop_exhausted E.
by rewrite addnS ltnS; case: (leqP start stop) => [/subnKC->|/ltnW le] //;
   apply: leq_trans le (leq_addr _ _).
Qed.

End ByScaleExtras.

(** *** [handle_input], [save_fits] and [restore] *)

Section SessionMethods.

Lemma set_from_end_last2 (T : Type) (v a b : T) (pre : seq T) :
  set_from_end 1 v (pre ++ [:: a; b]) = Some (pre ++ [:: a; v])
  /\ set_from_end 2 v (pre ++ [:: a; b]) = Some (pre ++ [:: v; b]).
Proof.
rewrite /set_from_end size_cat /= addn2 /= subn1 subn2 /=.
by split; congr Some; elim: pre => //= y pre ->.
Qed.

Lemma handle_input_step_last2 c d r pre :
  handle_input_step c (pre ++ [:: axis_of d; axis_of r])
  = Some (pre ++ [:: axis_of (d || String.prefix "DEC" c);
                     axis_of (r || String.prefix "RA" c)]).
Proof.
rewrite /handle_input_step.
case ra: (String.prefix "RA" c); case dec: (String.prefix "DEC" c);
  rewrite ?orbT ?orbF //.
- have [-> _] := set_from_end_last2 SliceAll (axis_of d) (axis_of r) pre.
  by have [_ ->] := set_from_end_last2 SliceAll (axis_of d) SliceAll pre.
- by have [-> _] := set_from_end_last2 SliceAll (axis_of d) (axis_of r) pre.
- by have [_ ->] := set_from_end_last2 SliceAll (axis_of d) (axis_of r) pre.
Qed.

Lemma handle_input_fold cs d r pre :
  foldl (fun acc ctype =>
           if acc is Some input_slice
           then handle_input_step ctype input_slice else None)
    (Some (pre ++ [:: axis_of d; axis_of r])) cs
  = Some (pre ++ [:: axis_of (d || has (String.prefix "DEC") cs);
                     axis_of (r || has (String.prefix "RA") cs)]).
Proof.
elim: cs d r => [|c cs IH] d r /=; first by rewrite !orbF.
by rewrite handle_input_step_last2 IH !orbA.
Qed.

(** Lines 642-651: for a header of two axes or more, the result has one
    index per axis; the last is the full slice when the [CTYPE] of some
    axis starts with [RA], the one before when some starts with [DEC],
    whichever axes these are, and every other index is [0]. *)
Theorem handle_input_selects_sky_axes ctypes :
  (1 < size ctypes)%N ->
  handle_input ctypes
  = Some (nseq (size ctypes - 2) Index0
          ++ [:: axis_of (has (String.prefix "DEC") ctypes);
                 axis_of (has (String.prefix "RA") ctypes)]).
Proof.
move=> lt; rewrite /handle_input.
have -> : nseq (size ctypes) Index0
          = nseq (size ctypes - 2) Index0 ++ [:: axis_of false; axis_of false].
  by rewrite -[in LHS](subnK lt) nseqD.
by rewrite handle_input_fold.
Qed.

(** Lines 642-651: [handle_input] raises ([IndexError], from
    [input_slice[-2]]) exactly on a header of one axis whose [CTYPE]
    starts with [DEC]. *)
Theorem handle_input_index_error ctypes :
  handle_input ctypes = None
  <-> exists2 c, ctypes = [:: c] & String.prefix "DEC" c.
Proof.
case: ctypes => [|c [|c' cs]].
- by split=> // -[].
- rewrite /handle_input /= /handle_input_step.
  case ra: (String.prefix "RA" c); case dec: (String.prefix "DEC" c) => /=.
  + by split=> // _; exists c.
  + by split=> // -[c1 [<-]]; rewrite dec.
  + by split=> // _; exists c.
  + by split=> // -[c1 [<-]]; rewrite dec.
- by rewrite handle_input_selects_sky_axes //; split=> // -[].
Qed.

(** Line 661: [save_fits] reshapes its data to [(1, 1, H, H)], which
    numpy accepts only when the data are square (or have no row). *)
Theorem save_fits_needs_square h w :
  isSome (save_fits_reshape (h, w)) = (h == 0%N) || (w == h).
Proof.
rewrite /save_fits_reshape /= !mul1n; case: h => [|h] //.
by rewrite eqn_pmul2l // eq_sym; case: eqP.
Qed.

Lemma size_restore_slice (T : Type) n (s : seq T) :
  size s = (2 * n)%N -> size (getslice (restore_slice n) s) = n.
Proof.
move=> sz; rewrite /getslice /py_slice /restore_slice /= sz.
have : (uphalf n + n./2 = n)%coq_nat.
  by rewrite plusE uphalf_half -addnA addnn odd_double_half.
have : (n./2 <= uphalf n)%coq_nat.
  by apply/ssrnat.leP; rewrite uphalf_half leq_addl.
rewrite addn1 !divn2 -uphalfE; move: (uphalf n) (n./2) => b a ab hE.
have lo : slice_index (2 * n) a%:Z = a.
  by rewrite /slice_index /=; apply/minn_idPl; nat_arith.
have hi : slice_index (2 * n) (- b%:Z) = (2 * n - b)%N.
  rewrite /slice_index oppr_lt0 ltz_nat.
  case: b ab hE => [|b] ab hE /=.
    by rewrite min0n; nat_arith.
  have le : (b.+1 <= 2 * n)%N by nat_arith.
  by rewrite addrC (subzn le) ltz_nat ltn0 /=.
rewrite lo hi size_take size_drop sz.
have -> : (2 * n - b - a = n)%N by nat_arith.
by case: ltnP => // ?; nat_arith.
Qed.

(** Lines 622-625: cropped to [[H/2 : -H/2, W/2 : -W/2]], an array of
    shape [(2H, 2W)] has the shape [(H, W)] of the dirty image, for odd
    sides as for even ones. *)
Theorem restore_crop_shape (R : realFieldType) H W (a : image R) :
  img_shape (2 * H) (2 * W) a -> img_shape H W (restore_crop (H, W) a).
Proof.
case/andP=> /eqP sa /allP sr.
rewrite /img_shape /restore_crop /getslice2 size_map size_restore_slice //=.
rewrite eqxx /=; apply/allP => row /mapP[row0 in0 ->].
rewrite size_restore_slice //; apply/eqP/sr.
by move: in0; rewrite /getslice => /mem_take/mem_drop.
Qed.

End SessionMethods.

(** *** The subregion *)

Section SubregionFacts.
Variable R : realFieldType.

Lemma size_central (T : Type) n k (s : seq T) :
  size s = n -> (k <= n %/ 2)%N -> size (getslice (central n k) s) = (2 * k)%N.
Proof.
move=> sz le; rewrite /getslice /py_slice /central /= sz.
have le2 : (n %/ 2 + n %/ 2 <= n)%N.
  by rewrite addnn -muln2 leq_trunc_div.
rewrite (subzn le) -PoszD /slice_index /=.
have -> : minn (n %/ 2 - k) n = (n %/ 2 - k)%N.
  by apply/minn_idPl; nat_arith.
have -> : minn (n %/ 2 + k) n = (n %/ 2 + k)%N.
  by apply/minn_idPl; nat_arith.
rewrite size_take size_drop sz.
have -> : (n %/ 2 + k - (n %/ 2 - k) = 2 * k)%N.
  by nat_arith.
by case: ltnP => // ?; nat_arith.
Qed.

(** Lines 120-122 and 136-139: on a square image of side [H] the dirty
    subregion is a square of side [2 * (subregion / 2)], with
    [subregion] capped at [H]: one less than [subregion] when that is
    odd. *)
Theorem dirty_subregion_shape (P : params R) H (a : image R) :
  img_shape H H a ->
  img_shape (2 * (resolve_subregion P H %/ 2))
    (2 * (resolve_subregion P H %/ 2))
    (in_subregion (subregion_slice_of (H, H) (resolve_subregion P H)) a).
Proof.
case/andP=> /eqP sa /allP sr.
have le : (resolve_subregion P H %/ 2 <= H %/ 2)%N.
  apply: leq_div2r; rewrite /resolve_subregion.
  by case: (subregion P) => // s; case: ltnP => // /ltnW.
rewrite /img_shape /in_subregion /getslice2 /subregion_slice_of /=.
rewrite size_map size_central // eqxx /=.
apply/allP => row /mapP[row0 in0 ->]; rewrite size_central //.
by apply/eqP/sr; move: in0; rewrite /getslice => /mem_take/mem_drop.
Qed.

End SubregionFacts.

(** *** The transforms on the GPU *)

Section GpuShapes.

(** Lines 83-88 and 115-116: the real-to-complex transform of an array
    of [w] columns has [w / 2 + 1] columns, and the size the inverse
    transform computes from them is [2 * (w / 2)]: the width [w] when it
    is even, one column less when it is odd.  With padding, it is twice
    the shape of the input. *)
Theorem gpu_transform_round_trip h w :
  gpu_c2r_output_size (gpu_r2c_output_size false (h, w))
  = (h%:Z, (w - odd w)%:Z)
  /\ gpu_c2r_output_size (gpu_r2c_output_size true (h, w))
     = ((2 * h)%:Z, (2 * w)%:Z).
Proof.
rewrite /gpu_c2r_output_size /gpu_r2c_output_size /= !PoszD !addrK.
split; congr (_, _); rewrite -PoszM; congr Posz.
  by rewrite divn2 mul2n -{2}(odd_double_half w) addKn.
by rewrite mulKn.
Qed.

(** Lines 118-119: on an axis of length [2 * n] the slice of the padded
    inverse transform has whole bounds exactly when [n] is even, and is
    then [[n/2 : 3*(n/2)]], of length [n]. *)
Theorem gpu_padded_slice (T : Type) n (s : seq T) :
  size s = (2 * n)%N ->
  if odd n then gpu_c2r_slice true (2 * n) = None
  else gpu_c2r_slice true (2 * n)
       = Some ((n %/ 2)%:Z, (3 * (n %/ 2))%:Z)
       /\ size (getslice ((n %/ 2)%:Z, (3 * (n %/ 2))%:Z) s) = n.
Proof.
move=> sz; rewrite /gpu_c2r_slice.
have -> : (4 %| 2 * n)%N = ~~ odd n.
  by rewrite -[4%N]/(2 * 2)%N dvdn_pmul2l // dvdn2.
have -> : (2 * n %/ 4 = n %/ 2)%N.
  by rewrite -[4%N]/(2 * 2)%N divnMl.
case on: (odd n) => //=; split=> //.
rewrite /getslice /py_slice /slice_index /= sz.
have nE : (n = 2 * (n %/ 2))%coq_nat.
  by rewrite multE divn2 mul2n -[LHS]odd_double_half on.
move: (n %/ 2)%N nE => k nE.
have -> : minn k (2 * n) = k by apply/minn_idPl; nat_arith.
have -> : minn (3 * k) (2 * n) = (3 * k)%N by apply/minn_idPl; nat_arith.
rewrite size_take size_drop sz.
have -> : (3 * k - k = n)%N by nat_arith.
by case: ltnP => // ?; nat_arith.
Qed.

End GpuShapes.

(** *** More on the circular convolution *)

Section FftExtras.
Variable C : numClosedFieldType.
Variable omega : nat -> C.

(** Line 56: the result of the circular convolution has the shape of its
    inputs. *)
Theorem circular_convolution_shape h w (a b : carray C) :
  (0 < h)%N -> has_shape h w a -> has_shape h w b ->
  has_shape h w (fft_convolve_circular omega a b).
Proof.
move=> h0 sa sb.
rewrite /fft_convolve_circular (fft2_mkseq omega h0 sa) [b](mkseq_cat2 sb).
rewrite cmul_mkseq /ifft2 height_mkseq width_mkseq //.
rewrite /fftshift height_mkseq width_mkseq // np_real_mkseq.
exact: has_shape_mkseq.
Qed.

(** Line 56: the circular convolution is commutative; convolving [a]
    with the transform of [b] is convolving [b] with the transform of
    [a]. *)
Theorem circular_convolution_commutes h w (a b : carray C) :
  (0 < h)%N -> has_shape h w a -> has_shape h w b ->
  fft_convolve_circular omega a (fft2 omega b)
  = fft_convolve_circular omega b (fft2 omega a).
Proof.
move=> h0 sa sb.
rewrite /fft_convolve_circular !(fft2_mkseq omega h0 sa).
rewrite !(fft2_mkseq omega h0 sb) !cmul_mkseq.
congr (np_real (fftshift (ifft2 omega _))).
by apply: eq_mkseq2 => i j _ _; rewrite mulrC.
Qed.

(** Line 56, entry by entry: convolving a real array with the transform
    of the unit peak at [(i0, j0)] moves the entry at [(i, j)] by
    [(i0 + h/2, j0 + w/2)], modulo the sides. *)
Theorem circular_peak_entry
    (gpu_r2c gpu_c2r : carray C -> bool -> carray C)
    (fftconvolve_same : carray C -> carray C -> carray C)
    h w i0 j0 i j (a : carray C) :
  h.-primitive_root (omega h) -> w.-primitive_root (omega w) ->
  has_shape h w a -> is_real_array a ->
  (i0 < h)%N -> (j0 < w)%N -> (i < h)%N -> (j < w)%N ->
  cat2
    (fft_convolve omega gpu_r2c gpu_c2r fftconvolve_same a
       (fft2 omega (delta C h w i0 j0)) false Circular)
    ((i + i0 + h %/ 2) %% h) ((j + j0 + w %/ 2) %% w)
  = cat2 a i j.
Proof.
move=> hP wP sh ra lti0 ltj0 lti ltj.
have h0 := prim_order_gt0 hP; have w0 := prim_order_gt0 wP.
rewrite /= circular_delta_shift // cat2_mkseq ?ltn_pmod //.
have roll n k k0 : (0 < n)%N -> (k < n)%N -> (k0 < n)%N ->
    (((k + k0 + n %/ 2) %% n + (n - n %/ 2) + (n - k0)) %% n = k)%N.
  move=> n0 ltk ltk0; rewrite -addnA modnDml.
  have le2 : (n %/ 2 <= n)%N by apply: leq_div.
  have -> : (k + k0 + n %/ 2 + (n - n %/ 2 + (n - k0)) = k + (n + n))%N.
    by nat_arith.
  by rewrite addnA !modnDr modn_small.
by rewrite !roll.
Qed.

End FftExtras.

Section FftLinear.
Variable C : numClosedFieldType.
Variable omega : nat -> C.

Lemma cadd_mkseq (f g : nat -> nat -> C) h w :
  cadd (mkseq (fun i => mkseq (f i) w) h) (mkseq (fun i => mkseq (g i) w) h)
  = mkseq (fun i => mkseq (fun j => f i j + g i j) w) h.
Proof.
rewrite /cadd /zip_with /mkseq.
elim: (iota 0 h) => //= i s ->; congr (_ :: _).
by elim: (iota 0 w) => //= j t ->.
Qed.

Lemma fft2_of_mkseq (f : nat -> nat -> C) h w :
  (0 < h)%N ->
  fft2 omega (mkseq (fun i => mkseq (f i) w) h)
  = mkseq (fun u => mkseq (fun v =>
      \sum_(j < h) \sum_(k < w)
        f j k * omega h ^+ (u * j) * omega w ^+ (v * k)) w) h.
Proof.
move=> h0; rewrite (fft2_mkseq omega h0 (has_shape_mkseq f h w)).
apply: eq_mkseq2 => u v _ _.
apply: eq_bigr => j _; apply: eq_bigr => k _.
by rewrite cat2_mkseq.
Qed.

Lemma ifft2_of_mkseq (f : nat -> nat -> C) h w :
  (0 < h)%N ->
  ifft2 omega (mkseq (fun i => mkseq (f i) w) h)
  = mkseq (fun j => mkseq (fun k =>
      (h * w)%:R^-1 *
      \sum_(u < h) \sum_(v < w)
        f u v * omega h ^- (u * j) * omega w ^- (v * k)) w) h.
Proof.
move=> h0; rewrite /ifft2 height_mkseq width_mkseq //.
apply: eq_mkseq2 => j k _ _; congr (_ * _).
apply: eq_bigr => u _; apply: eq_bigr => v _.
by rewrite cat2_mkseq.
Qed.

Lemma fftshift_of_mkseq (f : nat -> nat -> C) h w :
  (0 < h)%N ->
  fftshift (mkseq (fun i => mkseq (f i) w) h)
  = mkseq (fun i => mkseq (fun j =>
      cat2 (mkseq (fun i => mkseq (f i) w) h)
        ((i + (h - h %/ 2)) %% h) ((j + (w - w %/ 2)) %% w)) w) h.
Proof. by move=> h0; rewrite /fftshift height_mkseq width_mkseq. Qed.

(** Line 56: the circular convolution is additive in the image. *)
Theorem circular_convolution_additive h w (a a' b : carray C) :
  (0 < h)%N -> has_shape h w a -> has_shape h w a' -> has_shape h w b ->
  fft_convolve_circular omega (cadd a a') b
  = cadd (fft_convolve_circular omega a b)
         (fft_convolve_circular omega a' b).
Proof.
move=> h0 sa sa' sb; rewrite /fft_convolve_circular.
rewrite [a](mkseq_cat2 sa) [a'](mkseq_cat2 sa') [b](mkseq_cat2 sb).
rewrite cadd_mkseq !fft2_of_mkseq // !cmul_mkseq !ifft2_of_mkseq //.
rewrite !fftshift_of_mkseq // !np_real_mkseq cadd_mkseq.
apply: eq_mkseq2 => i j lti ltj.
have w0 : (0 < w)%N by case: w ltj {sa sa' sb}.
rewrite !cat2_mkseq ?ltn_pmod // -raddfD /= -mulrDr; congr ('Re (_ * _)).
rewrite -big_split /=; apply: eq_bigr => u _.
rewrite -big_split /=; apply: eq_bigr => v _.
rewrite -!mulrDl; congr (_ * _ * _); rewrite -mulrDr; congr (_ * _).
rewrite -big_split /=; apply: eq_bigr => j' _.
rewrite -big_split /=; apply: eq_bigr => k' _.
by rewrite -!mulrDl.
Qed.

End FftLinear.

(** *** The scales the major loop analyses, and where it writes *)

Section ScaleFacts.
Variable R : realFieldType.

(** Lines 338-350: [scale_adjust] is at most [max_index]; the scale just
    below it is empty when there is one, and no scale from it up to
    [max_index - 1] is empty. *)
Theorem find_scale_adjust_first_empty (nsm : seq R) i :
  [/\ (find_scale_adjust nsm i <= i)%N,
      (0 < find_scale_adjust nsm i)%N ->
      nth 0 nsm (find_scale_adjust nsm i).-1 = 0
    & forall j, (find_scale_adjust nsm i <= j < i)%N -> nth 0 nsm j != 0].
Proof.
elim: i => [|i [le emp full]] /=; first by split=> // j; rewrite ltn0 andbF.
case: eqP => [z|/eqP nz]; split=> //.
- by move=> j; rewrite leqNgt andNb.
- exact: leqW.
move=> j; rewrite ltnS [(j <= i)%N]leq_eqVlt andb_orr => /orP[/andP[_ /eqP->]|] //.
exact: full.
Qed.

End ScaleFacts.

Section WriteFacts.
Variables (R : realFieldType) (TB : toolbox R) (P : params R).
Variable dirty_data : image R.
Variable subregion_slice : slice * slice.
Variable psf_data_fft : spectrum TB.

Lemma nth_mapi_from (T : Type) (x0 : T) k (f : nat -> T -> T) s i :
  (i < size s)%N ->
  nth x0 (mapi_from k f s) i = f (k + i)%N (nth x0 s i).
Proof.
elim: s k i => // v s IH k [|i] /=; first by rewrite addn0.
by rewrite ltnS => lt; rewrite IH // addSnnS.
Qed.

Lemma at2_update_slice2 (op : R -> R -> R) rows cols (v a : image R) i j :
  ~~ (in_slice (py_slice (size a) rows.1 rows.2) i
      && in_slice (py_slice (size (nth [::] a i)) cols.1 cols.2) j) ->
  at2 (update_slice2 op rows cols v a) i j = at2 a i j.
Proof.
rewrite /at2 /update_slice2 /update_slice => out.
have [lti|gei] := ltnP i (size a); last first.
  by rewrite !(@nth_default _ _ _ i) ?size_mapi_from.
rewrite nth_mapi_from // add0n.
case ini: (in_slice _ i) out => //= out.
have [ltj|gej] := ltnP j (size (nth [::] a i)); last first.
  by rewrite !(@nth_default _ _ _ j) ?size_mapi_from.
by rewrite nth_mapi_from // add0n (negPf out).
Qed.

(** Lines 498 and 513: the deconvolution step writes to the model only
    inside the subregion. *)
Theorem step_writes_subregion_only (st : major_state R) i j :
  ~~ (in_slice (py_slice (size (model st)) subregion_slice.1.1
                  subregion_slice.1.2) i
      && in_slice (py_slice (size (nth [::] (model st) i))
                     subregion_slice.2.1 subregion_slice.2.2) j) ->
  at2 (model (deconvolution_step P dirty_data subregion_slice psf_data_fft st))
    i j
  = at2 (model st) i j.
Proof.
move=> out; rewrite model_step; case: ifP => // _.
by rewrite /accrete /slice_iadd at2_update_slice2.
Qed.

End WriteFacts.

(** *** The further properties on the bench *)

Lemma odflt_someE (T : Type) (d : T) (o : option T) :
  isSome o -> o = Some (odflt d o).
Proof. by case: o. Qed.

Lemma exhaustedE (T : Type) (r : result T) : is_exhausted r -> r = Exhausted.
Proof. by case: r. Qed.

Lemma real_square_array : is_real_array square_array.
Proof. by rewrite /is_real_array /= real1 !realn. Qed.

Lemma scale_count_within_log2_witness :
  (2 ^ (resolve_scale_count (bench_params 1) 4).+1 <= 4)%N.
Proof.
exact: (scale_count_within_log2 (bench_params 1) (isT : (1 < 4)%N)).1.
Defined.

Lemma edge_corruption_closed_form_witness :
  suppression_array_of edge_params 8 2
  = mkseq (fun i =>
      ones_inside Qc 8 (maxn (edge_offset edge_params) (2 ^ i.+2 - 2))) 2.
Proof.
have es : edge_suppression edge_params by evaluate.
exact: (edge_corruption_closed_form 8 2 es).
Defined.

Lemma exit_solution_witness :
  (minor_step minor_third).1 = Break
  /\ x (minor_step minor_third).2
     = if (40%:R < snr_of (TB := bench) minor_params minor_psf 1 0
                     minor_sources minor_mask minor_third)
          && (minor_loop_niter minor_third != 0%N)
       then xn_of (TB := bench) minor_params minor_psf 1 0 minor_mask
              minor_third
       else x minor_third.
Proof.
have B : (minor_step minor_third).1 = Break by evaluate.
by split; [exact: B | exact: (exit_solution B)].
Defined.

Lemma major_loop_bounded_witness :
  isSome (bench_loop (bench_params 1))
  /\ (major_loop_niter bench_state
      <= major_loop_niter (odflt bench_state (bench_loop (bench_params 1)))
      <= maxn (major_loop_niter bench_state)
           (major_loop_miter (bench_params 1)))%N.
Proof.
have S : isSome (bench_loop (bench_params 1)) by evaluate.
have E := odflt_someE bench_state S.
by split; [exact: S | exact: (major_loop_bounded E)].
Defined.

Lemma published_residual_witness :
  (0 < major_loop_niter
         (odflt bench_state
            (run_major_loop bench 3 (bench_params 1) bench_session.1
               bench_session.2)))%N
  /\ deref
       (returned bench_session
          (moresane bench 3 (bench_params 1) bench_session.1
             bench_session.2)).2
       (self_model
          (returned bench_session
             (moresane bench 3 (bench_params 1) bench_session.1
                bench_session.2)).1)
     = img_add (deref bench_session.2 (self_model bench_session.1))
         (model
            (odflt bench_state
               (run_major_loop bench 3 (bench_params 1) bench_session.1
                  bench_session.2))).
Proof.
have S : is_return
           (moresane bench 3 (bench_params 1) bench_session.1
              bench_session.2) by evaluate.
have E := returned_pairE bench_session S.
have L : isSome
           (run_major_loop bench 3 (bench_params 1) bench_session.1
              bench_session.2) by evaluate.
have F := odflt_someE bench_state L.
have N : (0 < major_loop_niter
                (odflt bench_state
                   (run_major_loop bench 3 (bench_params 1) bench_session.1
                      bench_session.2)))%N by evaluate.
have [_ mE _ _] := published_residual E F N.
by split; [exact: N | exact: mE].
Defined.

Lemma complete_means_no_work_witness :
  self_complete
    (returned null_session
       (moresane bench 3 (null_params (-1)) null_session.1
          null_session.2)).1
  /\ (returned null_session
        (moresane bench 3 (null_params (-1)) null_session.1
           null_session.2)).2
     = null_session.2.
Proof.
have S : is_return
           (moresane bench 3 (null_params (-1)) null_session.1
              null_session.2) by evaluate.
have E := returned_pairE null_session S.
have nc : ~~ self_complete null_session.1 by evaluate.
have c : self_complete
           (returned null_session
              (moresane bench 3 (null_params (-1)) null_session.1
                 null_session.2)).1 by evaluate.
by split; [exact: c | exact: (complete_means_no_work E nc c).1].
Defined.

Lemma moresane_writes_model_only_witness :
  deref
    (returned bench_session
       (moresane bench 3 (bench_params 1) bench_session.1
          bench_session.2)).2
    (self_dirty_data
       (returned bench_session
          (moresane bench 3 (bench_params 1) bench_session.1
             bench_session.2)).1)
  = deref bench_session.2 (self_dirty_data bench_session.1).
Proof.
have S : is_return
           (moresane bench 3 (bench_params 1) bench_session.1
              bench_session.2) by evaluate.
have E := returned_pairE bench_session S.
have ltd : (self_dirty_data bench_session.1 < size bench_session.2)%N.
  by evaluate.
have ltp : (self_psf_data bench_session.1 < size bench_session.2)%N.
  by evaluate.
have ned : self_dirty_data bench_session.1 != self_model bench_session.1.
  by evaluate.
have nep : self_psf_data bench_session.1 != self_model bench_session.1.
  by evaluate.
by have [dE _ _ _] := moresane_writes_model_only E ltd ltp ned nep.
Defined.

Lemma by_scale_on_complete_session_witness :
  moresane_by_scale bench 3 (bench_params 1) 1 2
    (set_complete true bench_session.1) bench_session.2
  = Return (set_complete false (set_complete true bench_session.1),
            bench_session.2).
Proof.
have c : self_complete (set_complete true bench_session.1) by evaluate.
exact: (by_scale_on_complete_session bench 3 (bench_params 1) 1 2
          bench_session.2 c).
Defined.

Lemma by_scale_loop_ends_witness :
  exists c1 s1 h1,
    moresane bench 0 (with_scale_count (bench_params 1) c1) s1 h1 = Exhausted.
Proof.
have X : is_exhausted
           (moresane_by_scale bench 0 (bench_params 1) 1 1 bench_session.1
              bench_session.2) by evaluate.
exact: (by_scale_loop_ends (exhaustedE X)).
Defined.

Lemma handle_input_selects_sky_axes_witness :
  handle_input sky_header
  = Some (nseq (size sky_header - 2) Index0
          ++ [:: axis_of (has (String.prefix "DEC") sky_header);
                 axis_of (has (String.prefix "RA") sky_header)]).
Proof.
exact: (handle_input_selects_sky_axes (isT : (1 < size sky_header)%N)).
Defined.

Lemma restore_crop_shape_witness :
  img_shape 1 3 (restore_crop (1, 3)%N (np_zeros Qc 2 6)).
Proof.
have sh : img_shape (2 * 1) (2 * 3) (np_zeros Qc 2 6) by evaluate.
exact: (restore_crop_shape sh).
Defined.

Lemma dirty_subregion_shape_witness :
  img_shape (2 * (resolve_subregion odd_subregion_params 4 %/ 2))
    (2 * (resolve_subregion odd_subregion_params 4 %/ 2))
    (in_subregion
       (subregion_slice_of (4, 4)%N (resolve_subregion odd_subregion_params 4))
       bench_dirty).
Proof.
have sh : img_shape 4 4 bench_dirty by evaluate.
exact: (dirty_subregion_shape odd_subregion_params sh).
Defined.

Lemma gpu_padded_slice_witness :
  gpu_c2r_slice true (2 * 2) = Some ((2 %/ 2)%:Z, (3 * (2 %/ 2))%:Z)
  /\ size (getslice ((2 %/ 2)%:Z, (3 * (2 %/ 2))%:Z) [:: 0; 1; 2; 3]%N) = 2%N.
Proof.
exact: (gpu_padded_slice (n := 2) (s := [:: 0; 1; 2; 3]%N) (erefl _)).
Defined.

Lemma circular_convolution_shape_witness :
  has_shape 2 2 (fft_convolve_circular omegaC square_array other_array).
Proof.
exact: (circular_convolution_shape omegaC (isT : (0 < 2)%N)
          (isT : has_shape 2 2 square_array)
          (isT : has_shape 2 2 other_array)).
Defined.

Lemma circular_convolution_commutes_witness :
  fft_convolve_circular omegaC square_array (fft2 omegaC other_array)
  = fft_convolve_circular omegaC other_array (fft2 omegaC square_array).
Proof.
exact: (circular_convolution_commutes omegaC (isT : (0 < 2)%N)
          (isT : has_shape 2 2 square_array)
          (isT : has_shape 2 2 other_array)).
Defined.

Lemma circular_convolution_additive_witness :
  fft_convolve_circular omegaC (cadd square_array other_array) other_array
  = cadd (fft_convolve_circular omegaC square_array other_array)
         (fft_convolve_circular omegaC other_array other_array).
Proof.
exact: (circular_convolution_additive omegaC (isT : (0 < 2)%N)
          (isT : has_shape 2 2 square_array)
          (isT : has_shape 2 2 other_array)
          (isT : has_shape 2 2 other_array)).
Defined.

Lemma circular_peak_entry_witness :
  cat2
    (fft_convolve omegaC no_gpu no_gpu no_scipy square_array
       (fft2 omegaC (delta algC 2 2 0 1)) false Circular)
    ((1 + 0 + 2 %/ 2) %% 2) ((0 + 1 + 2 %/ 2) %% 2)
  = cat2 square_array 1 0.
Proof.
have P2 : 2.-primitive_root (omegaC 2) by apply: omegaCP.
exact: (circular_peak_entry no_gpu no_gpu no_scipy P2 P2
          (isT : has_shape 2 2 square_array) real_square_array
          (isT : (0 < 2)%N) (isT : (1 < 2)%N) (isT : (1 < 2)%N)
          (isT : (0 < 2)%N)).
Defined.

Lemma step_writes_subregion_only_witness :
  at2
    (model
       (deconvolution_step (TB := bench) (bench_params 1) bench_dirty
          (subregion_slice_of (4, 4)%N 2) bench_psf
          (bench_after (bench_params 1))))
    0 0
  = at2 (model (bench_after (bench_params 1))) 0 0.
Proof.
have out :
  ~~ (in_slice
        (py_slice (size (model (bench_after (bench_params 1))))
           (subregion_slice_of (4, 4)%N 2).1.1
           (subregion_slice_of (4, 4)%N 2).1.2) 0
      && in_slice
           (py_slice
              (size (nth [::] (model (bench_after (bench_params 1))) 0))
              (subregion_slice_of (4, 4)%N 2).2.1
              (subregion_slice_of (4, 4)%N 2).2.2) 0) by evaluate.
exact: (step_writes_subregion_only (TB := bench) (bench_params 1) bench_dirty
          bench_psf out).
Defined.
